(** * Crossword CSP solver: a shallow embedding of [crossword/generate.py]

    The development embeds the constraint-satisfaction engine of
    [CrosswordCreator] (node consistency, [revise], AC-3, the consistency
    checker, the ordering heuristics and the backtracking search) and states
    the properties of the specification over it.

    Reading of the source.  In [generate.py] the first statement of every
    solver method sits at the method's body indentation and all following
    statements are shifted left by one level, uniformly, so the relative
    nesting of the statements is intact.  The embedding follows that nesting
    (for instance both statements under [for variable in self.domains] are
    the loop body, and [del assignment[var]] belongs to the
    [if self.consistent(assignment)] block).

    Data.
    - A Python [set] is a duplicate-free list in iteration order; a set
      comprehension and [set.remove] keep the relative order of the
      remaining elements.
    - [self.domains] is a [dict] whose keys are fixed at construction to the
      slots of the crossword and never change; it is modelled by its lookup
      function, and an update changes one point of that function.
    - [assignment] is an insertion-ordered [dict], modelled as an association
      list in insertion order.
    - A Python exception is the result [Raise]; the recursion depth of
      [backtrack] and the iterations of the [while] loop of [ac3] are counted
      by a fuel argument whose exhaustion is the result [OutOfFuel]. *)

From Stdlib Require Import List String Ascii Bool Arith ZArith Lia.
From Stdlib Require Import Permutation Sorted.
Import ListNotations.

Local Open Scope string_scope.
Local Open Scope list_scope.
Local Open Scope nat_scope.

(** ** Results of fallible computations *)

Inductive exn : Type := IndexError | KeyError.

Inductive res (A : Type) : Type :=
| Ok (a : A)
| Raise (e : exn)
| OutOfFuel.

Arguments Ok {A} a.
Arguments Raise {A} e.
Arguments OutOfFuel {A}.

Definition bind {A B : Type} (m : res A) (k : A -> res B) : res B :=
  match m with
  | Ok a => k a
  | Raise e => Raise e
  | OutOfFuel => OutOfFuel
  end.

Notation "x <- m ;; k" := (bind m (fun x => k))
  (at level 61, m at next level, right associativity).
Notation "' p <- m ;; k" := (bind m (fun x => let p := x in k))
  (at level 61, p pattern, m at next level, right associativity).

(** ** The structural model *)

Inductive Direction : Type := ACROSS | DOWN.

(** Modelled from the spec: the class [Variable] of [crossword.py] (a slot:
    starting cell, direction and length; two slots are equal iff all
    attributes match).  [len(variable)] and [variable.length] both denote
    [slot_length]. *)
Record Slot : Type := mkSlot {
  slot_i : nat;
  slot_j : nat;
  slot_direction : Direction;
  slot_length : nat
}.

Definition Direction_eq_dec (a b : Direction) : {a = b} + {a <> b}.
Proof. decide equality. Defined.

Definition Slot_eq_dec (a b : Slot) : {a = b} + {a <> b}.
Proof. decide equality; try apply Nat.eq_dec; apply Direction_eq_dec. Defined.

Definition slot_eqb (a b : Slot) : bool :=
  if Slot_eq_dec a b then true else false.

(** Modelled from the spec: the class [Crossword] of [crossword.py], as far
    as the solver reads it: the set of slots, the shared vocabulary and,
    for every ordered pair of slots, an optional overlap (index into the
    first slot's word, index into the second slot's word). *)
Record Crossword : Type := mkCrossword {
  variables : list Slot;
  words : list string;
  overlaps : Slot -> Slot -> option (nat * nat)
}.

(** Modelled from the spec: [Crossword.neighbors]; slot [v] is a neighbor of
    [x] iff they are distinct and an overlap exists between them. *)
Definition neighbors (cw : Crossword) (x : Slot) : list Slot :=
  filter (fun v => negb (slot_eqb v x) &&
                   match overlaps cw x v with Some _ => true | None => false end)
         (variables cw).

(** Well-formed structural models: what [crossword.py] builds from a grid. *)
Record wf_crossword (cw : Crossword) : Prop := mkWf {
  wf_irrefl : forall x, overlaps cw x x = None;
  wf_sym : forall x y i j,
      overlaps cw x y = Some (i, j) -> overlaps cw y x = Some (j, i);
  wf_range : forall x y i j,
      overlaps cw x y = Some (i, j) -> i < slot_length x /\ j < slot_length y
}.

(** ** The domain store *)

Definition Domains : Type := Slot -> list string.

(** [self.domains[x] = l] *)
Definition dom_set (D : Domains) (x : Slot) (l : list string) : Domains :=
  fun z => if Slot_eq_dec z x then l else D z.

(** [__init__]: every slot starts from a copy of the whole vocabulary. *)
Definition init_domains (cw : Crossword) : Domains := fun _ => words cw.

(** [enforce_node_consistency] *)
Definition enforce_node_consistency (cw : Crossword) (D : Domains) : Domains :=
  fold_left
    (fun D variable =>
       let word_length := slot_length variable in
       dom_set D variable
               (filter (fun value => String.length value =? word_length)
                       (D variable)))
    (variables cw) D.

(** ** revise *)

(** [x_value[x_index] == y_value[y_index]]; indexing past the end of a
    string raises [IndexError]. *)
Definition letters_agree (xv : string) (xi : nat) (yv : string) (yi : nat)
  : res bool :=
  match String.get xi xv with
  | None => Raise IndexError
  | Some a =>
      match String.get yi yv with
      | None => Raise IndexError
      | Some b => Ok (Ascii.eqb a b)
      end
  end.

(** [any(x_value[x_index] == y_value[y_index] for y_value in ys)], stopping
    at the first agreeing value. *)
Fixpoint any_agree (xv : string) (xi yi : nat) (ys : list string) : res bool :=
  match ys with
  | [] => Ok false
  | yv :: ys' =>
      b <- letters_agree xv xi yv yi ;;
      if b then Ok true else any_agree xv xi yi ys'
  end.

(** [self.domains[x].remove(x_value)] *)
Definition set_remove (w : string) (l : list string) : list string :=
  filter (fun v => negb (String.eqb v w)) l.

(** The loop [for x_value in list(self.domains[x])] of [revise]: [xs] is the
    snapshot still to visit, [D] and [revised] the current state. *)
Fixpoint revise_loop (x y : Slot) (xi yi : nat) (xs : list string)
         (D : Domains) (revised : bool) : res (Domains * bool) :=
  match xs with
  | [] => Ok (D, revised)
  | x_value :: xs' =>
      b <- any_agree x_value xi yi (D y) ;;
      if b then revise_loop x y xi yi xs' D revised
      else revise_loop x y xi yi xs' (dom_set D x (set_remove x_value (D x))) true
  end.

Definition revise (cw : Crossword) (D : Domains) (x y : Slot)
  : res (Domains * bool) :=
  match overlaps cw x y with
  | None => Ok (D, false)
  | Some (x_index, y_index) => revise_loop x y x_index y_index (D x) D false
  end.

(** ** ac3 *)

Definition Arc : Type := (Slot * Slot)%type.

(** The default queue: [(x, y) for x in variables for y in neighbors(x)]. *)
Definition all_arcs (cw : Crossword) : list Arc :=
  flat_map (fun x => map (fun y => (x, y)) (neighbors cw x)) (variables cw).

(** The arcs appended after a revision of [x] against [y]. *)
Definition requeue (cw : Crossword) (x y : Slot) : list Arc :=
  map (fun z => (z, x)) (filter (fun z => negb (slot_eqb z y)) (neighbors cw x)).

(** The [while queue] loop; one unit of fuel per iteration. *)
Fixpoint ac3_loop (cw : Crossword) (fuel : nat) (D : Domains) (queue : list Arc)
  : res Domains :=
  match queue with
  | [] => Ok D
  | (x, y) :: queue' =>
      match fuel with
      | 0 => OutOfFuel
      | S fuel' =>
          '(D', revised) <- revise cw D x y ;;
          if (revised : bool)
          then ac3_loop cw fuel' D' (queue' ++ requeue cw x y)
          else ac3_loop cw fuel' D' queue'
      end
  end.

Definition sum_sizes (D : Domains) (l : list Slot) : nat :=
  fold_right (fun v n => List.length (D v) + n) 0 l.

Definition arc_weight (cw : Crossword) (a : Arc) : nat :=
  if in_dec Slot_eq_dec (fst a) (variables cw) then 1
  else S (List.length (variables cw)).

(** A bound on the iterations the loop can make from [(D, queue)]: each
    iteration either shortens the queue or removes a word from a domain,
    after which at most [len(variables)] arcs are appended. *)
Definition queue_weight (cw : Crossword) (queue : list Arc) : nat :=
  fold_right (fun a n => arc_weight cw a + n) 0 queue.

Definition ac3_measure (cw : Crossword) (D : Domains) (queue : list Arc) : nat :=
  S (List.length (variables cw)) * sum_sizes D (variables cw)
  + queue_weight cw queue.

(** [any(len(self.domains[var]) == 0 for var in variables)] *)
Definition some_domain_empty (cw : Crossword) (D : Domains) : bool :=
  existsb (fun var => List.length (D var) =? 0) (variables cw).

(** The queue [ac3] starts from. *)
Definition initial_queue (cw : Crossword) (arcs : option (list Arc)) : list Arc :=
  match arcs with Some q => q | None => all_arcs cw end.

(** [ac3(arcs)]; [None] for [arcs] is the default queue.  The loop is run
    with [ac3_measure] units of fuel, which [ac3_loop_terminates] shows to
    be enough. *)
Definition ac3 (cw : Crossword) (D : Domains) (arcs : option (list Arc))
  : res (Domains * bool) :=
  let queue := initial_queue cw arcs in
  D' <- ac3_loop cw (ac3_measure cw D queue) D queue ;;
  if some_domain_empty cw D' then Ok (D', false) else Ok (D', true).

(** ** Assignments *)

Definition Assignment : Type := list (Slot * string).

Definition keys (a : Assignment) : list Slot := map fst a.

(** [var in assignment] *)
Definition dict_mem (a : Assignment) (v : Slot) : bool :=
  existsb (slot_eqb v) (keys a).

(** [assignment[var] = value]: an existing key keeps its position, a new
    key is appended. *)
Definition dict_set (a : Assignment) (v : Slot) (w : string) : Assignment :=
  if dict_mem a v
  then map (fun p => if slot_eqb (fst p) v then (v, w) else p) a
  else a ++ [(v, w)].

(** [del assignment[var]]; a missing key raises [KeyError]. *)
Definition dict_del (a : Assignment) (v : Slot) : res Assignment :=
  if dict_mem a v
  then Ok (filter (fun p => negb (slot_eqb (fst p) v)) a)
  else Raise KeyError.

(** [assignment_complete]: [set(assignment.keys()) == set(variables)]. *)
Definition assignment_complete (cw : Crossword) (a : Assignment) : bool :=
  forallb (fun v => existsb (slot_eqb v) (variables cw)) (keys a)
  && forallb (dict_mem a) (variables cw).

(** ** consistent *)

(** The inner loop [for variable2 in assignment] for a fixed [variable1]. *)
Fixpoint consistent_inner (cw : Crossword) (variable1 : Slot) (value1 : string)
         (a : Assignment) : res bool :=
  match a with
  | [] => Ok true
  | (variable2, value2) :: a' =>
      if slot_eqb variable1 variable2
      then consistent_inner cw variable1 value1 a'
      else
        match overlaps cw variable1 variable2 with
        | None => consistent_inner cw variable1 value1 a'
        | Some (x, y) =>
            b <- letters_agree value1 x value2 y ;;
            if b then consistent_inner cw variable1 value1 a' else Ok false
        end
  end.

(** The outer loop [for variable1 in assignment]; [todo] is the part of the
    assignment still to visit. *)
Fixpoint consistent_outer (cw : Crossword) (todo a : Assignment) : res bool :=
  match todo with
  | [] => Ok true
  | (variable1, value1) :: todo' =>
      if negb (slot_length variable1 =? String.length value1) then Ok false
      else
        b <- consistent_inner cw variable1 value1 a ;;
        if b then consistent_outer cw todo' a else Ok false
  end.

Definition consistent (cw : Crossword) (a : Assignment) : res bool :=
  consistent_outer cw a a.

(** ** Stable sorting by a key ([list.sort(key=...)]) *)

Section StableSort.
Context {K A : Type} (leb : K -> K -> bool).

Fixpoint insert_by (p : K * A) (l : list (K * A)) : list (K * A) :=
    match l with
    | [] => [p]
    | q :: l' => if leb (fst p) (fst q) then p :: l else q :: insert_by p l'
    end.

Definition sort_by_key (l : list (K * A)) : list (K * A) :=
    fold_right insert_by [] l.
End StableSort.

(** The keys of [l], computed left to right; the first exception stops. *)
Fixpoint keyed {K A : Type} (key : A -> res K) (l : list A) : res (list (K * A)) :=
  match l with
  | [] => Ok []
  | x :: l' =>
      k <- key x ;;
      ks <- keyed key l' ;;
      Ok ((k, x) :: ks)
  end.

(** ** order_domain_values *)

(** [for neighbor_value in self.domains[neighbor]] of [count_constrained_values]. *)
Fixpoint count_neighbor_values (value : string) (overlap : option (nat * nat))
         (nvs : list string) (constrained_values : nat) : res nat :=
  match nvs with
  | [] => Ok constrained_values
  | neighbor_value :: nvs' =>
      match overlap with
      | None => count_neighbor_values value overlap nvs' constrained_values
      | Some (x, y) =>
          b <- letters_agree value x neighbor_value y ;;
          count_neighbor_values value overlap nvs'
            (if b then constrained_values else S constrained_values)
      end
  end.

(** [for neighbor in self.crossword.neighbors(var)] *)
Fixpoint count_constrained_loop (cw : Crossword) (D : Domains) (var : Slot)
         (a : Assignment) (value : string) (ns : list Slot)
         (constrained_values : nat) : res nat :=
  match ns with
  | [] => Ok constrained_values
  | neighbor :: ns' =>
      if dict_mem a neighbor
      then count_constrained_loop cw D var a value ns' constrained_values
      else
        c <- count_neighbor_values value (overlaps cw var neighbor)
                                   (D neighbor) constrained_values ;;
        count_constrained_loop cw D var a value ns' c
  end.

Definition count_constrained_values (cw : Crossword) (D : Domains) (var : Slot)
           (a : Assignment) (value : string) : res nat :=
  count_constrained_loop cw D var a value (neighbors cw var) 0.

Definition order_domain_values (cw : Crossword) (D : Domains) (var : Slot)
           (a : Assignment) : res (list string) :=
  let domain := D var in
  ks <- keyed (count_constrained_values cw D var a) domain ;;
  Ok (map snd (sort_by_key Nat.leb ks)).

(** ** select_unassigned_variable *)

(** The sort key [(len(self.domains[var]), -len(neighbors(var)))]. *)
Definition select_key (cw : Crossword) (D : Domains) (var : Slot) : nat * Z :=
  (List.length (D var), (- Z.of_nat (List.length (neighbors cw var)))%Z).

(** Python's ordering of pairs. *)
Definition key_leb (k1 k2 : nat * Z) : bool :=
  (fst k1 <? fst k2) || ((fst k1 =? fst k2) && (snd k1 <=? snd k2)%Z).

Definition select_unassigned_variable (cw : Crossword) (D : Domains)
           (a : Assignment) : option Slot :=
  let unassigned_variables :=
      filter (fun var => negb (dict_mem a var)) (variables cw) in
  hd_error
    (map snd (sort_by_key key_leb
                (map (fun var => (select_key cw D var, var)) unassigned_variables))).

(** ** backtrack and solve *)

(** The state a call leaves behind: the returned value ([Some] assignment or
    [None]), [self.domains], and the caller's [assignment] dictionary, which
    the call mutates in place. *)
Definition BtResult : Type := (option Assignment * Domains * Assignment)%type.

(** The loop [for value in self.order_domain_values(var, assignment)];
    [rec] is the recursive call [self.backtrack]. *)
Fixpoint try_values (cw : Crossword) (rec : Domains -> Assignment -> res BtResult)
         (var : Slot) (vals : list string) (D : Domains) (a : Assignment)
  : res BtResult :=
  match vals with
  | [] => Ok (None, D, a)
  | value :: vals' =>
      c <- consistent cw a ;;
      if (c : bool) then
        let a1 := dict_set a var value in
        '(D1, consistent') <- ac3 cw D None ;;
        if (consistent' : bool) then
          '(result, D2, a2) <- rec D1 a1 ;;
          match result with
          | Some r => Ok (Some r, D2, a2)
          | None =>
              a3 <- dict_del a2 var ;;
              try_values cw rec var vals' D2 a3
          end
        else
          a3 <- dict_del a1 var ;;
          try_values cw rec var vals' D1 a3
      else try_values cw rec var vals' D a
  end.

(** [backtrack]; [depth] bounds the recursion depth.  When no slot is
    unassigned but the assignment is not complete, [var] is Python's [None]
    and [self.domains[None]] raises [KeyError]. *)
Fixpoint backtrack (cw : Crossword) (depth : nat) (D : Domains) (a : Assignment)
  : res BtResult :=
  match depth with
  | 0 => OutOfFuel
  | S depth' =>
      if assignment_complete cw a then Ok (Some a, D, a)
      else
        match select_unassigned_variable cw D a with
        | None => Raise KeyError
        | Some var =>
            vals <- order_domain_values cw D var a ;;
            try_values cw (backtrack cw depth') var vals D a
        end
  end.

(** [solve], with the final domain store.  Every recursive call of
    [backtrack] assigns one more slot, so a depth of [len(variables) + 1]
    is never exhausted ([backtrack_total]). *)
Definition solve_state (cw : Crossword) : res (option Assignment * Domains) :=
  let D0 := enforce_node_consistency cw (init_domains cw) in
  '(D1, _) <- ac3 cw D0 None ;;
  '(result, D2, _) <- backtrack cw (S (List.length (variables cw))) D1 [] ;;
  Ok (result, D2).

Definition solve (cw : Crossword) : res (option Assignment) :=
  '(result, _) <- solve_state cw ;;
  Ok result.

(** ** letter_grid *)

(** The 2D array [letters]: [height] rows of [width] cells, each [None] or
    a letter. *)
Definition Letters : Type := list (list (option ascii)).

(** [[[None for _ in range(width)] for _ in range(height)]].
    Modelled from the spec: [width] and [height] are the attributes
    [self.crossword.width] and [self.crossword.height] of the class
    [Crossword] of [crossword.py]. *)
Definition blank_letters (width height : nat) : Letters :=
  repeat (repeat None width) height.

(** [l[n] = x] on a list, for [n] in range. *)
Fixpoint list_set {A : Type} (n : nat) (x : A) (l : list A) : list A :=
  match l, n with
  | [], _ => []
  | _ :: l', 0 => x :: l'
  | y :: l', S n' => y :: list_set n' x l'
  end.

(** [letters[i][j] = c]; an index past the end of the array or of the row
    raises [IndexError]. *)
Definition letters_set (letters : Letters) (i j : nat) (c : ascii) : res Letters :=
  match nth_error letters i with
  | None => Raise IndexError
  | Some row =>
      if j <? List.length row
      then Ok (list_set i (list_set j (Some c) row) letters)
      else Raise IndexError
  end.

(** The cell of the [k]-th letter of a slot:
    [i = variable.i + (k if direction == DOWN else 0)],
    [j = variable.j + (k if direction == ACROSS else 0)]. *)
Definition cell_of (variable : Slot) (k : nat) : nat * nat :=
  (slot_i variable + match slot_direction variable with DOWN => k | ACROSS => 0 end,
   slot_j variable + match slot_direction variable with ACROSS => k | DOWN => 0 end).

Arguments cell_of : simpl never.

(** The loop [for k in range(len(word))], from index [k] on; [word] is the
    rest of the word. *)
Fixpoint write_word (variable : Slot) (word : list ascii) (k : nat)
         (letters : Letters) : res Letters :=
  match word with
  | [] => Ok letters
  | c :: word' =>
      let '(i, j) := cell_of variable k in
      letters' <- letters_set letters i j c ;;
      write_word variable word' (S k) letters'
  end.

(** The loop [for variable, word in assignment.items()]. *)
Fixpoint write_words (a : Assignment) (letters : Letters) : res Letters :=
  match a with
  | [] => Ok letters
  | (variable, word) :: a' =>
      letters' <- write_word variable (list_ascii_of_string word) 0 letters ;;
      write_words a' letters'
  end.

(** [letter_grid] *)
Definition letter_grid (width height : nat) (a : Assignment) : res Letters :=
  write_words a (blank_letters width height).

(** ** A two-slot grid

    The grid
<<
      _ #
      _ _
>>
    has one down slot [(0,0)-(1,0)] and one across slot [(1,0)-(1,1)], both
    of length 2; they share the cell [(1,0)], which is letter 0 of the
    across word and letter 1 of the down word. *)
Module TwoSlots.
Definition A : Slot := mkSlot 1 0 ACROSS 2.
Definition B : Slot := mkSlot 0 0 DOWN 2.

Definition ov (x y : Slot) : option (nat * nat) :=
  if Slot_eq_dec x A then (if Slot_eq_dec y B then Some (0, 1) else None)
  else if Slot_eq_dec x B then (if Slot_eq_dec y A then Some (1, 0) else None)
  else None.

Definition grid (vocabulary : list string) : Crossword :=
  mkCrossword [A; B] vocabulary ov.

(** The same grid with the slot set iterated in the other order. *)
Definition grid' (vocabulary : list string) : Crossword :=
  mkCrossword [B; A] vocabulary ov.
End TwoSlots.

(** * Specification predicates *)

(** [agreeb xv xi yv yi]: both letters exist and are equal. *)
Definition agreeb (xv : string) (xi : nat) (yv : string) (yi : nat) : bool :=
  match String.get xi xv, String.get yi yv with
  | Some a, Some b => Ascii.eqb a b
  | _, _ => false
  end.

(** [xv] has a supporting word in [ys] at the overlap indices [(xi, yi)]. *)
Definition supportedb (xi yi : nat) (ys : list string) (xv : string) : bool :=
  existsb (fun yv => agreeb xv xi yv yi) ys.

(** The store [D'] has no word that [D] lacks. *)
Definition dom_incl (D' D : Domains) : Prop :=
  forall x w, In w (D' x) -> In w (D x).

(** Every candidate of every slot has the slot's length. *)
Definition node_consistent (cw : Crossword) (D : Domains) : Prop :=
  forall x, In x (variables cw) ->
  forall w, In w (D x) -> String.length w = slot_length x.

(** The words [xv] and [yv] carry the same letter at the given indices. *)
Definition agree_at (xv : string) (xi : nat) (yv : string) (yi : nat) : Prop :=
  exists c, String.get xi xv = Some c /\ String.get yi yv = Some c.

(** Every candidate of [x] has a supporting candidate in the domain of [y]. *)
Definition arc_ok (cw : Crossword) (D : Domains) (x y : Slot) : Prop :=
  forall xi yi, overlaps cw x y = Some (xi, yi) ->
  forall xv, In xv (D x) -> exists yv, In yv (D y) /\ agree_at xv xi yv yi.

(** Every arc of the model is consistent. *)
Definition arc_consistent (cw : Crossword) (D : Domains) : Prop :=
  forall x y, In x (variables cw) -> In y (neighbors cw x) -> arc_ok cw D x y.

(** The arcs of a queue range over the slots of the model. *)
Definition queue_ok (cw : Crossword) (q : list Arc) : Prop :=
  forall a, In a q -> In (fst a) (variables cw) /\ In (snd a) (variables cw).

(** The loop invariant: an arc of the model that is not waiting in the
    queue is consistent. *)
Definition pending (cw : Crossword) (D : Domains) (q : list Arc) : Prop :=
  forall x y, In x (variables cw) -> In y (neighbors cw x) ->
              In (x, y) q \/ arc_ok cw D x y.

(** The head of a keyed list is below every other element. *)
Definition head_min {K A : Type} (leb : K -> K -> bool) (l : list (K * A)) : Prop :=
  match l with
  | [] => True
  | p :: l' => forall q, In q l' -> leb (fst p) (fst q) = true
  end.

(** The number of slots that have no entry yet. *)
Definition unassigned (cw : Crossword) (a : Assignment) : nat :=
  List.length (filter (fun var => negb (dict_mem a var)) (variables cw)).

(** An assignment built by the search over the store [D]: a dictionary
    whose keys are slots and whose values come from the slots' domains. *)
Definition assignment_ok (cw : Crossword) (D : Domains) (a : Assignment) : Prop :=
  NoDup (keys a)
  /\ forall v w, In (v, w) a -> In v (variables cw) /\ In w (D v).

(** What the checker accepts: every assigned word has the length of its
    slot, and any two distinct assigned slots with an overlap carry the
    same letter at the overlap indices. *)
Definition consistent_prop (cw : Crossword) (a : Assignment) : Prop :=
  (forall v w, In (v, w) a -> String.length w = slot_length v)
  /\ (forall v1 w1 v2 w2 x y,
         In (v1, w1) a -> In (v2, w2) a -> v1 <> v2 ->
         overlaps cw v1 v2 = Some (x, y) -> agree_at w1 x w2 y).

(** What a call of the search leaves behind on a store [D] at the fixed
    point of AC-3: the store is untouched, a failed call has restored the
    assignment, a successful call returns the dictionary it was working on. *)
Definition frame (D : Domains) (a : Assignment) (out : BtResult) : Prop :=
  let '(r, D', a') := out in
  D' = D
  /\ (r = None -> a' = a)
  /\ (forall x, r = Some x -> x = a').

(** A solution of the crossword: one vocabulary word per slot, of the
    slot's length, agreeing at every overlap. *)
Definition solution (cw : Crossword) (s : Slot -> string) : Prop :=
  (forall x, In x (variables cw) ->
             In (s x) (words cw) /\ String.length (s x) = slot_length x)
  /\ (forall x y xi yi,
         In x (variables cw) -> In y (variables cw) -> x <> y ->
         overlaps cw x y = Some (xi, yi) -> agree_at (s x) xi (s y) yi).

(** Every word of the solution is still a candidate. *)
Definition sol_in (cw : Crossword) (s : Slot -> string) (D : Domains) : Prop :=
  forall x, In x (variables cw) -> In (s x) (D x).

(** The assignment agrees with the solution [s] on its keys. *)
Definition follows (s : Slot -> string) (a : Assignment) : Prop :=
  forall v w, In (v, w) a -> w = s v.

(** The value stored in a dictionary under a key. *)
Definition dict_get (a : Assignment) (v : Slot) : string :=
  match find (fun p => slot_eqb (fst p) v) a with
  | Some p => snd p
  | None => EmptyString
  end.

(** A grid with a single isolated slot of length 4. *)
Definition lone_slot : Slot := mkSlot 0 0 ACROSS 4.

Definition lone_grid (vocabulary : list string) : Crossword :=
  mkCrossword [lone_slot] vocabulary (fun _ _ => None).

(** The solution [{A: "DA", B: "CD"}] of the two-slot grid. *)
Definition two_slots_solution (x : Slot) : string :=
  if Slot_eq_dec x TwoSlots.A then "DA" else "CD".

(** The words of the neighbor [nb] that disagree with [value] at the
    overlap of [var] and [nb]. *)
Definition ruled_out (cw : Crossword) (D : Domains) (var : Slot)
           (value : string) (nb : Slot) : nat :=
  match overlaps cw var nb with
  | Some (x, y) =>
      List.length (filter (fun nv => negb (agreeb value x nv y)) (D nb))
  | None => 0
  end.

(** The assignment [r] is [a] followed by new entries: slots with a word
    of their domain in [D0]; the keys stay distinct; and unless nothing was
    added, [r] without its last entry passes the checker. *)
Definition extends_by (cw : Crossword) (D0 : Domains) (a r : Assignment) : Prop :=
  exists l,
    r = a ++ l
    /\ (forall v w, In (v, w) l -> In v (variables cw) /\ In w (D0 v))
    /\ (NoDup (keys a) -> NoDup (keys r))
    /\ (l = [] \/ exists r0 p, r = r0 ++ [p] /\ consistent cw r0 = Ok true).

(** What a call of the search returns. *)
Definition bt_post (cw : Crossword) (D0 : Domains) (a : Assignment)
           (out : BtResult) : Prop :=
  let '(r, _, a') := out in
  (r = None -> a' = a)
  /\ (forall x, r = Some x ->
        x = a' /\ assignment_complete cw x = true /\ extends_by cw D0 a x).

(** The cell [letters[i][j]], when it exists. *)
Definition letters_get (letters : Letters) (i j : nat) : option (option ascii) :=
  match nth_error letters i with
  | Some row => nth_error row j
  | None => None
  end.

(** The assignment writes the letter [c] into the cell [(i, j)]. *)
Definition writes (a : Assignment) (i j : nat) (c : ascii) : Prop :=
  exists variable word k,
    In (variable, word) a
    /\ String.get k word = Some c
    /\ cell_of variable k = (i, j).

(** The array has [height] rows of [width] cells. *)
Definition has_shape (width height : nat) (letters : Letters) : Prop :=
  List.length letters = height
  /\ Forall (fun row => List.length row = width) letters.

(** The array has the right shape and every cell holds a letter that the
    writes [W] put there, or nothing when [W] has no write for it. *)
Definition grid_inv (width height : nat) (W : nat -> nat -> ascii -> Prop) (letters : Letters) : Prop :=
  has_shape width height letters
  /\ forall i j, i < height -> j < width ->
       match letters_get letters i j with
       | Some (Some c) => W i j c
       | Some None => forall c, ~ W i j c
       | None => False
       end.

(** The cells of the letters of a word, from index [k] on, lie in the
    array. *)
Definition cells_in_bounds (width height : nat) (variable : Slot) (k len : nat) : Prop :=
  forall n, n < len ->
    fst (cell_of variable (k + n)) < height
    /\ snd (cell_of variable (k + n)) < width.

(** Every letter of every assigned word has its cell in the array. *)
Definition assignment_in_bounds (width height : nat) (a : Assignment) : Prop :=
  forall variable word k,
    In (variable, word) a -> k < String.length word ->
    fst (cell_of variable k) < height /\ snd (cell_of variable k) < width.

(** * Properties *)

(** ** Elementary facts *)

Lemma slot_eqb_eq (a b : Slot) : slot_eqb a b = true <-> a = b.
Proof. unfold slot_eqb. destruct (Slot_eq_dec a b); split; congruence. Qed.

Lemma slot_eqb_neq (a b : Slot) : slot_eqb a b = false <-> a <> b.
Proof. unfold slot_eqb. destruct (Slot_eq_dec a b); split; congruence. Qed.

Lemma slot_eqb_refl (a : Slot) : slot_eqb a a = true.
Proof. now apply slot_eqb_eq. Qed.

Lemma dom_set_same (D : Domains) x l : dom_set D x l x = l.
Proof. unfold dom_set. destruct (Slot_eq_dec x x); congruence. Qed.

Lemma dom_set_other (D : Domains) x l z : z <> x -> dom_set D x l z = D z.
Proof. unfold dom_set. destruct (Slot_eq_dec z x); congruence. Qed.

Lemma bind_Ok {A B} (m : res A) (k : A -> res B) (b : B) :
  bind m k = Ok b -> exists a, m = Ok a /\ k a = Ok b.
Proof. destruct m; simpl; intros H; try discriminate. eauto. Qed.

Lemma get_in_range (w : string) (i : nat) :
  i < String.length w -> exists c, String.get i w = Some c.
Proof.
  revert i. induction w as [|c w IH]; simpl; intros i Hi; [lia|].
  destruct i as [|i]; [eauto|]. apply IH. lia.
Qed.

Lemma get_Some_lt (w : string) (i : nat) c :
  String.get i w = Some c -> i < String.length w.
Proof.
  revert i. induction w as [|a w IH]; simpl; intros i Hi; [discriminate|].
  destruct i as [|i]; [lia|]. apply IH in Hi. lia.
Qed.

(** ** Support of a word in a neighbouring domain *)

Lemma agreeb_sym xv xi yv yi : agreeb xv xi yv yi = agreeb yv yi xv xi.
Proof.
  unfold agreeb. destruct (String.get xi xv), (String.get yi yv); auto.
  apply Ascii.eqb_sym.
Qed.

Lemma letters_agree_Ok xv xi yv yi :
  xi < String.length xv -> yi < String.length yv ->
  letters_agree xv xi yv yi = Ok (agreeb xv xi yv yi).
Proof.
  intros Hx Hy. unfold letters_agree, agreeb.
  destruct (get_in_range _ _ Hx) as [a ->].
  destruct (get_in_range _ _ Hy) as [b ->]. reflexivity.
Qed.

Lemma any_agree_Ok xv xi yi ys :
  xi < String.length xv ->
  (forall yv, In yv ys -> yi < String.length yv) ->
  any_agree xv xi yi ys = Ok (supportedb xi yi ys xv).
Proof.
  intros Hx. induction ys as [|yv ys IH]; simpl; intros Hy; [reflexivity|].
  rewrite letters_agree_Ok by auto. simpl.
  destruct (agreeb xv xi yv yi); simpl; auto.
Qed.

Lemma supportedb_incl xi yi ys ys' xv :
  incl ys ys' -> supportedb xi yi ys xv = true -> supportedb xi yi ys' xv = true.
Proof.
  unfold supportedb. rewrite !existsb_exists. intros Hi (y & Hy & E). eauto.
Qed.

(** ** revise *)

Lemma set_remove_In w v l : In v (set_remove w l) <-> In v l /\ v <> w.
Proof.
  unfold set_remove. rewrite filter_In, negb_true_iff, String.eqb_neq. tauto.
Qed.

(** What the loop of [revise] computes from the state [(D, revised)] when it
    still has the snapshot [xs] to visit. *)
Lemma revise_loop_spec x y xi yi xs :
  x <> y ->
  forall (D : Domains) revised,
    (forall w, In w xs -> xi < String.length w) ->
    (forall w, In w (D y) -> yi < String.length w) ->
    exists D',
      revise_loop x y xi yi xs D revised
      = Ok (D', revised || negb (forallb (supportedb xi yi (D y)) xs))
      /\ (forall z, z <> x -> D' z = D z)
      /\ (forall w, In w (D' x) <->
                    In w (D x) /\ (In w xs -> supportedb xi yi (D y) w = true))
      /\ (forallb (supportedb xi yi (D y)) xs = true -> D' = D).
Proof.
  intros Hxy. induction xs as [|w0 xs IH]; intros D revised Hxs Hys; simpl.
  - exists D. rewrite orb_false_r. repeat split; auto; tauto.
  - rewrite any_agree_Ok by (auto; apply Hxs; now left). simpl.
    destruct (supportedb xi yi (D y) w0) eqn:E; simpl.
    + destruct (IH D revised) as (D' & E' & Ho & Hx & Hid); auto.
      { intros; apply Hxs; now right. }
      exists D'. split; [exact E'|]. split; [exact Ho|]. split; [|exact Hid].
      intros w. rewrite Hx. split.
      * intros [H1 H2]. split; auto. intros [<-|H3]; auto.
      * intros [H1 H2]. split; auto.
    + set (D1 := dom_set D x (set_remove w0 (D x))).
      assert (Ey : D1 y = D y) by (apply dom_set_other; congruence).
      destruct (IH D1 true) as (D' & E' & Ho & Hx & Hid).
      { intros; apply Hxs; now right. }
      { rewrite Ey. auto. }
      rewrite Ey in *. exists D'. rewrite orb_true_r. split.
      { rewrite E'. reflexivity. }
      split; [|split].
      * intros z Hz. rewrite Ho by auto. apply dom_set_other; auto.
      * intros w. rewrite Hx. unfold D1. rewrite dom_set_same, set_remove_In.
        split.
        -- intros [[H1 H2] H3]. split; auto. intros [H4|H4]; [congruence|auto].
        -- intros [H1 H2]. split; [split|]; auto.
           intros ->. rewrite H2 in E by (now left). discriminate.
      * discriminate.
Qed.

Lemma set_remove_length w l :
  In w l -> List.length (set_remove w l) < List.length l.
Proof.
  unfold set_remove. induction l as [|v l IH]; simpl; [tauto|].
  intros [->|H].
  - rewrite String.eqb_refl. simpl.
    pose proof (filter_length_le (fun v => negb (String.eqb v w)) l). lia.
  - specialize (IH H). destruct (negb (String.eqb v w)); simpl; lia.
Qed.

Lemma set_remove_length_le w l :
  List.length (set_remove w l) <= List.length l.
Proof. apply filter_length_le. Qed.

(** Facts about the loop of [revise] that hold in every state, whatever the
    words and indices are: it only touches the domain of [x], only removes
    words, reports [False] only when nothing changed, and a first removal
    makes the domain strictly smaller. *)
Lemma revise_loop_shrink x y xi yi xs :
  forall (D D' : Domains) revised revised',
    revise_loop x y xi yi xs D revised = Ok (D', revised') ->
    (forall z, z <> x -> D' z = D z)
    /\ incl (D' x) (D x)
    /\ List.length (D' x) <= List.length (D x)
    /\ (revised' = false -> D' = D)
    /\ (revised = true -> revised' = true)
    /\ (revised = false -> revised' = true -> incl xs (D x) ->
        List.length (D' x) < List.length (D x)).
Proof.
  induction xs as [|w0 xs IH]; simpl; intros D D' r r' H.
  - inversion H; subst. repeat split; auto using incl_refl; congruence.
  - apply bind_Ok in H. destruct H as (b & Hb & H). destruct b.
    + apply IH in H. destruct H as (H1 & H2 & H3 & H4 & H5 & H6).
      repeat split; auto. intros Hr Hr' Hi. apply H6; auto.
      intros w Hw. apply Hi. now right.
    + apply IH in H. destruct H as (H1 & H2 & H3 & H4 & H5 & H6).
      rewrite dom_set_same in *.
      split; [|split; [|split; [|split; [|split]]]].
      * intros z Hz. rewrite H1 by auto. now apply dom_set_other.
      * intros w Hw. apply H2 in Hw. apply set_remove_In in Hw. tauto.
      * pose proof (set_remove_length_le w0 (D x)). lia.
      * intros ->. specialize (H5 eq_refl). discriminate.
      * auto.
      * intros _ _ Hi.
        assert (In w0 (D x)) by (apply Hi; now left).
        pose proof (set_remove_length w0 (D x) H). lia.
Qed.

Lemma revise_shrink cw (D D' : Domains) x y revised :
  revise cw D x y = Ok (D', revised) ->
  (forall z, z <> x -> D' z = D z)
  /\ incl (D' x) (D x)
  /\ (revised = false -> D' = D)
  /\ (revised = true -> List.length (D' x) < List.length (D x)).
Proof.
  unfold revise. destruct (overlaps cw x y) as [[xi yi]|].
  - intros H. apply revise_loop_shrink in H.
    destruct H as (H1 & H2 & H3 & H4 & H5 & H6).
    repeat split; auto. intros ->. apply H6; auto using incl_refl.
  - intros H. inversion H; subst.
    repeat split; auto using incl_refl. discriminate.
Qed.

(** ** Node consistency and arc consistency of a domain store *)

Lemma dom_incl_refl D : dom_incl D D.
Proof. intros x w H. exact H. Qed.

Lemma dom_incl_trans D1 D2 D3 : dom_incl D1 D2 -> dom_incl D2 D3 -> dom_incl D1 D3.
Proof. intros H1 H2 x w H. auto. Qed.

Lemma node_consistent_incl cw D D' :
  dom_incl D' D -> node_consistent cw D -> node_consistent cw D'.
Proof. intros Hi Hn x Hx w Hw. apply Hn; auto. Qed.

Lemma agreeb_true_iff xv xi yv yi :
  agreeb xv xi yv yi = true <-> agree_at xv xi yv yi.
Proof.
  unfold agreeb, agree_at. split.
  - destruct (String.get xi xv) as [a|]; [|discriminate].
    destruct (String.get yi yv) as [b|]; [|discriminate].
    intros H. apply Ascii.eqb_eq in H. subst. eauto.
  - intros (c & -> & ->). apply Ascii.eqb_refl.
Qed.

Lemma supportedb_true_iff xi yi ys xv :
  supportedb xi yi ys xv = true <->
  exists yv, In yv ys /\ agree_at xv xi yv yi.
Proof.
  unfold supportedb. rewrite existsb_exists.
  split; intros (yv & H1 & H2); exists yv; split; auto;
    now apply agreeb_true_iff.
Qed.

Lemma agree_at_sym xv xi yv yi : agree_at xv xi yv yi -> agree_at yv yi xv xi.
Proof. intros (c & H1 & H2). exists c. auto. Qed.

Lemma revise_dom_incl cw D D' x y revised :
  revise cw D x y = Ok (D', revised) -> dom_incl D' D.
Proof.
  intros H. apply revise_shrink in H. destruct H as (H1 & H2 & _).
  intros z w Hw. destruct (Slot_eq_dec z x) as [->|Hz]; auto.
  rewrite H1 in Hw; auto.
Qed.

Lemma neighbors_spec cw x v :
  In v (neighbors cw x) <->
  In v (variables cw) /\ v <> x /\ exists ov, overlaps cw x v = Some ov.
Proof.
  unfold neighbors. rewrite filter_In, andb_true_iff, negb_true_iff, slot_eqb_neq.
  destruct (overlaps cw x v) as [ov|].
  - split; [intros (H1 & H2 & _); eauto | tauto].
  - split; [intros (_ & _ & H); discriminate | intros (_ & _ & ov & H); discriminate].
Qed.

(** The contract of [revise] on a well-formed model and node-consistent
    domains of [x] and [y]. *)
Lemma revise_spec cw D x y :
  wf_crossword cw -> node_consistent cw D ->
  In x (variables cw) -> In y (variables cw) ->
  exists D' revised,
    revise cw D x y = Ok (D', revised)
    /\ (forall z, z <> x -> D' z = D z)
    /\ (forall xi yi, overlaps cw x y = Some (xi, yi) ->
        D' x = filter (supportedb xi yi (D y)) (D x))
    /\ (overlaps cw x y = None -> D' = D)
    /\ (revised = false -> D' = D)
    /\ (revised = true <-> exists w, In w (D x) /\ ~ In w (D' x)).
Proof.
  intros Hwf Hnc Hx Hy. unfold revise.
  destruct (overlaps cw x y) as [[xi yi]|] eqn:Eo.
  - assert (Hxy : x <> y).
    { intros ->. rewrite (wf_irrefl _ Hwf) in Eo. discriminate. }
    destruct (wf_range _ Hwf _ _ _ _ Eo) as [Hi Hj].
    destruct (revise_loop_spec x y xi yi (D x) Hxy D false)
      as (D' & E & Ho & Hin & Hid).
    { intros w Hw. rewrite (Hnc x Hx w Hw). exact Hi. }
    { intros w Hw. rewrite (Hnc y Hy w Hw). exact Hj. }
    exists D', (negb (forallb (supportedb xi yi (D y)) (D x))).
    split; [exact E|]. split; [exact Ho|].
    pose proof (revise_loop_shrink _ _ _ _ _ _ _ _ _ E) as (_ & _ & _ & Hf & _).
    assert (Heq : D' x = filter (supportedb xi yi (D y)) (D x)).
    { clear - E Hxy Hi Hj Hnc Hx Hy.
      (* the loop keeps the relative order: prove it on the snapshot *)
      assert (G : forall xs (D0 : Domains) r D1 r1,
                 (forall w, In w xs -> xi < String.length w) ->
                 (forall w, In w (D0 y) -> yi < String.length w) ->
                 revise_loop x y xi yi xs D0 r = Ok (D1, r1) ->
                 D1 x = filter (fun w => supportedb xi yi (D0 y) w
                                         || negb (existsb (String.eqb w) xs))
                               (D0 x)).
      { induction xs as [|w0 xs IH]; simpl; intros D0 r D1 r1 Hxs Hys H.
        - inversion H; subst. symmetry.
          rewrite <- (filter_ext_in (fun _ => true)).
          + induction (D1 x); simpl; congruence.
          + intros a _. now rewrite orb_true_r.
        - rewrite any_agree_Ok in H by (auto; apply Hxs; now left). simpl in H.
          destruct (supportedb xi yi (D0 y) w0) eqn:E0.
          + apply IH in H; auto. rewrite H. apply filter_ext_in.
            intros a Ha. destruct (String.eqb a w0) eqn:Ea; simpl; auto.
            apply String.eqb_eq in Ea. subst. rewrite E0. reflexivity.
          + apply IH in H; auto.
            * rewrite dom_set_same, dom_set_other in H by congruence.
              rewrite H. unfold set_remove.
              clear - E0. induction (D0 x) as [|a l IHl]; simpl; auto.
              destruct (String.eqb a w0) eqn:Ea; simpl.
              -- apply String.eqb_eq in Ea. subst a.
                 rewrite E0. simpl. exact IHl.
              -- rewrite IHl. reflexivity.
            * rewrite dom_set_other by congruence. auto. }
      erewrite G; eauto.
      - apply filter_ext_in. intros a Ha.
        assert (existsb (String.eqb a) (D x) = true).
        { apply existsb_exists. exists a. split; auto. apply String.eqb_refl. }
        rewrite H. simpl. now rewrite orb_false_r.
      - intros w Hw. rewrite (Hnc x Hx w Hw). exact Hi.
      - intros w Hw. rewrite (Hnc y Hy w Hw). exact Hj. }
    split; [|split; [|split; [|split]]].
    + intros xi' yi' E'. inversion E'; subst. exact Heq.
    + discriminate.
    + intros Hr. apply Hf. exact Hr.
    + intros Hr. apply negb_true_iff in Hr.
      assert (~ forall w, In w (D x) -> supportedb xi yi (D y) w = true).
      { intros Hall. apply forallb_forall in Hall. congruence. }
      destruct (existsb (fun w => negb (supportedb xi yi (D y) w)) (D x)) eqn:Ee.
      * apply existsb_exists in Ee. destruct Ee as (w & Hw & Hs).
        exists w. split; auto. rewrite Heq, filter_In.
        intros [_ Hs']. rewrite Hs' in Hs. discriminate.
      * exfalso. apply H. intros w Hw.
        destruct (supportedb xi yi (D y) w) eqn:Es; auto.
        assert (existsb (fun w => negb (supportedb xi yi (D y) w)) (D x) = true).
        { apply existsb_exists. exists w. rewrite Es. auto. }
        congruence.
    + intros [w [Hw Hn]]. apply negb_true_iff.
      destruct (forallb (supportedb xi yi (D y)) (D x)) eqn:Ef; auto.
      rewrite Hid in Hn by auto. contradiction.
  - exists D, false. repeat split; auto; try discriminate.
    intros (w & Hw & Hn). contradiction.
Qed.

(** ** Termination of the loop of [ac3] *)

Lemma sum_sizes_le (D D' : Domains) l :
  (forall z, List.length (D' z) <= List.length (D z)) ->
  sum_sizes D' l <= sum_sizes D l.
Proof.
  intros H. induction l as [|v l IH]; simpl; [lia|]. specialize (H v). lia.
Qed.

Lemma sum_sizes_lt (D D' : Domains) l x :
  (forall z, List.length (D' z) <= List.length (D z)) ->
  In x l -> List.length (D' x) < List.length (D x) ->
  sum_sizes D' l < sum_sizes D l.
Proof.
  intros H. induction l as [|v l IH]; simpl; [tauto|].
  intros [->|Hx] Hlt.
  - pose proof (sum_sizes_le D D' l H). lia.
  - specialize (IH Hx Hlt). specialize (H v). lia.
Qed.

Lemma queue_weight_app cw q1 q2 :
  queue_weight cw (q1 ++ q2) = queue_weight cw q1 + queue_weight cw q2.
Proof. induction q1 as [|a q1 IH]; simpl; [reflexivity|]. rewrite IH. lia. Qed.

Lemma arc_weight_pos cw a : 1 <= arc_weight cw a.
Proof. unfold arc_weight. destruct (in_dec _ _ _); lia. Qed.

Lemma queue_weight_length cw q : List.length q <= queue_weight cw q.
Proof.
  induction q as [|a q IH]; simpl; [lia|]. pose proof (arc_weight_pos cw a). lia.
Qed.

Lemma requeue_In cw x y a :
  In a (requeue cw x y) <->
  exists z, a = (z, x) /\ In z (neighbors cw x) /\ z <> y.
Proof.
  unfold requeue. rewrite in_map_iff. split.
  - intros (z & <- & Hz). apply filter_In in Hz. destruct Hz as [H1 H2].
    apply negb_true_iff, slot_eqb_neq in H2. eauto.
  - intros (z & -> & H1 & H2). exists z. split; auto.
    apply filter_In. split; auto. now apply negb_true_iff, slot_eqb_neq.
Qed.

Lemma queue_weight_requeue cw x y :
  queue_weight cw (requeue cw x y) <= List.length (variables cw).
Proof.
  unfold requeue.
  assert (G : forall l, (forall z, In z l -> In z (variables cw)) ->
              queue_weight cw (map (fun z => (z, x)) l) = List.length l).
  { induction l as [|z l IH]; simpl; intros Hl; [reflexivity|].
    rewrite IH by auto. unfold arc_weight. simpl.
    destruct (in_dec Slot_eq_dec z (variables cw)) as [_|n]; [reflexivity|].
    exfalso. apply n. auto. }
  rewrite G.
  - etransitivity; [apply filter_length_le|]. unfold neighbors.
    apply filter_length_le.
  - intros z Hz. apply filter_In in Hz. destruct Hz as [Hz _].
    apply neighbors_spec in Hz. tauto.
Qed.

(** One iteration of the loop strictly decreases [ac3_measure]. *)
Lemma ac3_measure_step cw D x y q D' (revised : bool) :
  revise cw D x y = Ok (D', revised) ->
  ac3_measure cw D' (if revised then q ++ requeue cw x y else q)
  < ac3_measure cw D ((x, y) :: q).
Proof.
  intros H. apply revise_shrink in H. destruct H as (Ho & Hi & Hf & Ht).
  unfold ac3_measure. cbn [queue_weight fold_right].
  fold (queue_weight cw q). pose proof (arc_weight_pos cw (x, y)) as Hpos.
  destruct revised.
  - specialize (Ht eq_refl).
    assert (Hle : forall z, List.length (D' z) <= List.length (D z)).
    { intros z. destruct (Slot_eq_dec z x) as [->|Hz]; [lia|].
      rewrite Ho; auto. }
    rewrite queue_weight_app. pose proof (queue_weight_requeue cw x y) as Hrq.
    remember (List.length (variables cw)) as N.
    remember (queue_weight cw (requeue cw x y)) as R.
    remember (queue_weight cw q) as Q.
    unfold arc_weight in *. cbn [fst] in *. rewrite <- HeqN in *.
    destruct (in_dec Slot_eq_dec x (variables cw)) as [Hin|Hin].
    + pose proof (sum_sizes_lt D D' (variables cw) x Hle Hin Ht) as Hlt.
      assert (S N * S (sum_sizes D' (variables cw))
              <= S N * sum_sizes D (variables cw))
        by (apply Nat.mul_le_mono_l; lia).
      rewrite Nat.mul_succ_r in H. lia.
    + pose proof (sum_sizes_le D D' (variables cw) Hle) as Hlt.
      assert (S N * sum_sizes D' (variables cw)
              <= S N * sum_sizes D (variables cw))
        by (apply Nat.mul_le_mono_l; lia).
      lia.
  - rewrite (Hf eq_refl). lia.
Qed.

Lemma any_agree_no_timeout xv xi yi ys : any_agree xv xi yi ys <> OutOfFuel.
Proof.
  induction ys as [|yv ys IH]; simpl; [discriminate|].
  unfold letters_agree.
  destruct (String.get xi xv); [|discriminate].
  destruct (String.get yi yv); [|discriminate]. simpl.
  destruct (Ascii.eqb a a0); [discriminate|exact IH].
Qed.

Lemma revise_no_timeout cw D x y : revise cw D x y <> OutOfFuel.
Proof.
  unfold revise. destruct (overlaps cw x y) as [[xi yi]|]; [|discriminate].
  generalize false. generalize D at 2.
  induction (D x) as [|w l IHl]; simpl; intros D0 r; [discriminate|].
  pose proof (any_agree_no_timeout w xi yi (D0 y)).
  destruct (any_agree w xi yi (D0 y)) as [[]| |]; simpl; auto; discriminate.
Qed.

(** The loop never runs out of fuel when it is given [ac3_measure] units
    (or more): the [while] loop of [ac3] terminates from every state. *)
Lemma ac3_loop_terminates cw :
  forall fuel D q,
    ac3_measure cw D q <= fuel -> ac3_loop cw fuel D q <> OutOfFuel.
Proof.
  induction fuel as [|fuel IH]; intros D q Hm.
  - destruct q as [|[x y] q]; simpl; [discriminate|].
    unfold ac3_measure in Hm. simpl in Hm.
    pose proof (arc_weight_pos cw (x, y)). lia.
  - destruct q as [|[x y] q]; simpl; [discriminate|].
    pose proof (revise_no_timeout cw D x y) as Hnt.
    destruct (revise cw D x y) as [[D' revised]| |] eqn:E; simpl;
      try discriminate; try contradiction.
    pose proof (ac3_measure_step cw D x y q D' revised E).
    destruct revised; cbv iota in H; apply IH; apply Nat.lt_succ_r;
      (eapply Nat.lt_le_trans; [exact H | exact Hm]).
Qed.

Lemma ac3_loop_incl cw :
  forall fuel D q D', ac3_loop cw fuel D q = Ok D' -> dom_incl D' D.
Proof.
  induction fuel as [|fuel IH]; intros D q D' H.
  - destruct q as [|[x y] q]; simpl in H; [|discriminate].
    inversion H. apply dom_incl_refl.
  - destruct q as [|[x y] q]; simpl in H.
    + inversion H. apply dom_incl_refl.
    + apply bind_Ok in H. destruct H as ([D1 revised] & Hr & H).
      apply revise_dom_incl in Hr.
      destruct revised; apply IH in H; eapply dom_incl_trans; eauto.
Qed.

(** ** Correctness of the loop of [ac3] *)

Lemma all_arcs_In cw x y :
  In (x, y) (all_arcs cw) <-> In x (variables cw) /\ In y (neighbors cw x).
Proof.
  unfold all_arcs. rewrite in_flat_map. split.
  - intros (x' & Hx & H). apply in_map_iff in H.
    destruct H as (y' & E & Hy). inversion E; subst. auto.
  - intros [Hx Hy]. exists x. split; auto. apply in_map_iff. eauto.
Qed.

Lemma queue_ok_all_arcs cw : queue_ok cw (all_arcs cw).
Proof.
  intros [x y] H. apply all_arcs_In in H. destruct H as [Hx Hy].
  apply neighbors_spec in Hy. simpl. tauto.
Qed.

Lemma pending_all_arcs cw D : pending cw D (all_arcs cw).
Proof. intros x y Hx Hy. left. now apply all_arcs_In. Qed.

Lemma queue_ok_step cw x y q (revised : bool) :
  queue_ok cw ((x, y) :: q) ->
  queue_ok cw (if revised then q ++ requeue cw x y else q).
Proof.
  intros H. assert (Hq : queue_ok cw q) by (intros a Ha; apply H; now right).
  destruct revised; auto. intros a Ha. apply in_app_or in Ha.
  destruct Ha as [Ha|Ha]; auto. apply requeue_In in Ha.
  destruct Ha as (z & -> & Hz & _). apply neighbors_spec in Hz. simpl.
  split; [tauto|]. apply (H (x, y)). now left.
Qed.

Section Ac3Correct.
Variable cw : Crossword.
Hypothesis Hwf : wf_crossword cw.

Lemma arc_ok_of_filter D D' x y :
    In x (variables cw) -> In y (variables cw) -> node_consistent cw D ->
    (forall z, z <> x -> D' z = D z) ->
    (forall xi yi, overlaps cw x y = Some (xi, yi) ->
                   D' x = filter (supportedb xi yi (D y)) (D x)) ->
    arc_ok cw D' x y.
  Proof.
    intros Hx Hy Hnc Ho Hf xi yi Eo xv Hxv.
    assert (Hxy : y <> x).
    { intros ->. rewrite (wf_irrefl _ Hwf) in Eo. discriminate. }
    rewrite (Hf _ _ Eo) in Hxv. apply filter_In in Hxv.
    destruct Hxv as [_ Hs]. apply supportedb_true_iff in Hs.
    rewrite (Ho y Hxy). exact Hs.
  Qed.

  (** One iteration of the loop keeps the invariant. *)
Lemma pending_step D x y q D' (revised : bool) :
    node_consistent cw D ->
    In x (variables cw) -> In y (variables cw) ->
    revise cw D x y = Ok (D', revised) ->
    pending cw D ((x, y) :: q) ->
    pending cw D' (if revised then q ++ requeue cw x y else q).
  Proof.
    intros Hnc Hx Hy Hr Hp.
    destruct (revise_spec cw D x y Hwf Hnc Hx Hy)
      as (D1 & r1 & E & Ho & Hf & Hnone & Hfalse & Hrem).
    rewrite Hr in E. inversion E; subst D1 r1. clear E.
    assert (Hxy_ok : arc_ok cw D' x y) by (eapply arc_ok_of_filter; eauto).
    destruct revised.
    - intros u v Hu Hv.
      destruct (Hp u v Hu Hv) as [[E|Hq]|Hok].
      + inversion E; subst. now right.
      + left. apply in_or_app. now left.
      + destruct (Slot_eq_dec v x) as [->|Hvx].
        * destruct (Slot_eq_dec u y) as [->|Huy].
          -- (* the reverse arc [(y, x)] stays consistent *)
             right. intros j i Eo w Hw.
             pose proof (wf_sym _ Hwf _ _ _ _ Eo) as Eo'.
             assert (Hyx : y <> x).
             { intros ->. rewrite (wf_irrefl _ Hwf) in Eo. discriminate. }
             rewrite (Ho y Hyx) in Hw.
             destruct (Hok j i Eo w Hw) as (xv & Hxv & Hag).
             exists xv. split; auto.
             rewrite (Hf _ _ Eo'). apply filter_In. split; auto.
             apply supportedb_true_iff. exists w. split; auto.
             now apply agree_at_sym.
          -- left. apply in_or_app. right. apply requeue_In.
             exists u. split; auto. split; auto.
             apply neighbors_spec in Hv. destruct Hv as (_ & Hne & [i j] & Eo).
             apply neighbors_spec. split; auto. split; auto.
             exists (j, i). now apply (wf_sym _ Hwf).
        * right. intros i j Eo w Hw.
          assert (Hw' : In w (D u)).
          { eapply revise_dom_incl; eauto. }
          destruct (Hok i j Eo w Hw') as (yv & Hyv & Hag).
          exists yv. split; auto. rewrite (Ho v Hvx). exact Hyv.
    - rewrite (Hfalse eq_refl) in *.
      intros u v Hu Hv.
      destruct (Hp u v Hu Hv) as [[E|Hq]|Hok]; auto.
      inversion E; subst. now right.
  Qed.

  (** From a node-consistent store and a queue over the slots of the
      model, the loop returns a store, which is included in the initial one
      and is arc-consistent when the invariant held initially. *)
Lemma ac3_loop_correct :
    forall fuel D q,
      ac3_measure cw D q <= fuel ->
      node_consistent cw D -> queue_ok cw q ->
      exists D',
        ac3_loop cw fuel D q = Ok D'
        /\ dom_incl D' D
        /\ (pending cw D q -> arc_consistent cw D').
  Proof.
    induction fuel as [|fuel IH]; intros D q Hm Hnc Hq.
    - destruct q as [|[x y] q].
      + exists D. simpl. split; [reflexivity|]. split; [apply dom_incl_refl|].
        intros Hp u v Hu Hv. destruct (Hp u v Hu Hv) as [[]|H]; exact H.
      + exfalso. unfold ac3_measure in Hm. simpl in Hm.
        pose proof (arc_weight_pos cw (x, y)). lia.
    - destruct q as [|[x y] q].
      + exists D. simpl. split; [reflexivity|]. split; [apply dom_incl_refl|].
        intros Hp u v Hu Hv. destruct (Hp u v Hu Hv) as [[]|H]; exact H.
      + destruct (Hq (x, y) (or_introl eq_refl)) as [Hx Hy]. simpl in Hx, Hy.
        destruct (revise_spec cw D x y Hwf Hnc Hx Hy)
          as (D1 & r1 & E & _).
        pose proof (ac3_measure_step cw D x y q D1 r1 E) as Hstep.
        pose proof (revise_dom_incl _ _ _ _ _ _ E) as Hinc.
        destruct (IH D1 (if r1 then q ++ requeue cw x y else q))
          as (D' & E' & Hinc' & Hac).
        { apply Nat.lt_succ_r. eapply Nat.lt_le_trans; [exact Hstep|exact Hm]. }
        { eapply node_consistent_incl; eauto. }
        { now apply queue_ok_step. }
        exists D'. split; [|split].
        * simpl. rewrite E. simpl. destruct r1; exact E'.
        * eapply dom_incl_trans; eauto.
        * intros Hp. apply Hac. eapply pending_step; eauto.
  Qed.

  (** On an arc-consistent store [revise] changes nothing. *)
Lemma revise_fixed D x y :
    node_consistent cw D -> In x (variables cw) -> In y (variables cw) ->
    arc_ok cw D x y -> revise cw D x y = Ok (D, false).
  Proof.
    intros Hnc Hx Hy Hok.
    destruct (revise_spec cw D x y Hwf Hnc Hx Hy)
      as (D1 & r1 & E & Ho & Hf & Hnone & Hfalse & Hrem).
    assert (r1 = false).
    { destruct r1; auto. destruct (proj1 Hrem eq_refl) as (w & Hw & Hn).
      exfalso. apply Hn.
      destruct (overlaps cw x y) as [[xi yi]|] eqn:Eo.
      - rewrite (Hf _ _ eq_refl). apply filter_In. split; auto.
        apply supportedb_true_iff. eapply Hok; eauto.
      - rewrite Hnone; auto. }
    subst. rewrite (Hfalse eq_refl) in E. exact E.
  Qed.

Lemma ac3_loop_fixed D :
    node_consistent cw D -> arc_consistent cw D ->
    forall fuel q,
      (forall x y, In (x, y) q -> In x (variables cw) /\ In y (neighbors cw x)) ->
      List.length q <= fuel ->
      ac3_loop cw fuel D q = Ok D.
  Proof.
    intros Hnc Hac. induction fuel as [|fuel IH]; intros q Hq Hl.
    - destruct q; simpl in *; [reflexivity|lia].
    - destruct q as [|[x y] q]; simpl in *; [reflexivity|].
      destruct (Hq x y (or_introl eq_refl)) as [Hx Hy].
      rewrite revise_fixed; auto.
      + simpl. apply IH; [|lia]. intros; apply Hq; now right.
      + apply neighbors_spec in Hy. tauto.
  Qed.

  (** [ac3()] with the default queue. *)
Lemma ac3_default_spec D :
    node_consistent cw D ->
    exists D',
      ac3 cw D None = Ok (D', negb (some_domain_empty cw D'))
      /\ dom_incl D' D /\ arc_consistent cw D'.
  Proof.
    intros Hnc. unfold ac3, initial_queue.
    destruct (ac3_loop_correct (ac3_measure cw D (all_arcs cw)) D (all_arcs cw))
      as (D' & E & Hinc & Hac); auto using queue_ok_all_arcs.
    exists D'. rewrite E. simpl. split.
    - destruct (some_domain_empty cw D'); reflexivity.
    - split; auto. apply Hac, pending_all_arcs.
  Qed.

Lemma ac3_fixed D :
    node_consistent cw D -> arc_consistent cw D ->
    ac3 cw D None = Ok (D, negb (some_domain_empty cw D)).
  Proof.
    intros Hnc Hac. unfold ac3, initial_queue. rewrite ac3_loop_fixed; auto.
    - simpl. destruct (some_domain_empty cw D); reflexivity.
    - intros x y. apply all_arcs_In.
    - etransitivity; [apply (queue_weight_length cw)|].
      unfold ac3_measure. lia.
  Qed.
End Ac3Correct.

(** ** Node consistency *)

Lemma filter_idem {A} (f : A -> bool) l : filter f (filter f l) = filter f l.
Proof.
  induction l as [|a l IH]; simpl; [reflexivity|].
  destruct (f a) eqn:E; simpl; rewrite ?E, IH; reflexivity.
Qed.

Lemma enforce_node_consistency_at cw D x :
  enforce_node_consistency cw D x
  = if in_dec Slot_eq_dec x (variables cw)
    then filter (fun value => String.length value =? slot_length x) (D x)
    else D x.
Proof.
  unfold enforce_node_consistency. generalize (variables cw) as l. intros l.
  revert D. induction l as [|v l IH]; intros D; simpl; [reflexivity|].
  rewrite IH. destruct (Slot_eq_dec v x) as [->|Hv].
  - rewrite dom_set_same.
    destruct (in_dec Slot_eq_dec x l); [apply filter_idem|reflexivity].
  - rewrite dom_set_other by congruence.
    destruct (in_dec Slot_eq_dec x l); reflexivity.
Qed.

Lemma enforce_node_consistency_In cw D x w :
  In x (variables cw) ->
  (In w (enforce_node_consistency cw D x) <->
   In w (D x) /\ String.length w = slot_length x).
Proof.
  intros Hx. rewrite enforce_node_consistency_at.
  destruct (in_dec Slot_eq_dec x (variables cw)); [|contradiction].
  rewrite filter_In, Nat.eqb_eq. tauto.
Qed.

Lemma enforce_node_consistency_nc cw D :
  node_consistent cw (enforce_node_consistency cw D).
Proof.
  intros x Hx w Hw. apply enforce_node_consistency_In in Hw; tauto.
Qed.

(** ** Stable sorting: the head of the sorted list is a least element *)

Section SortFacts.
Context {K A : Type} (leb : K -> K -> bool).
Hypothesis leb_total : forall a b, leb a b = true \/ leb b a = true.
Hypothesis leb_trans : forall a b c, leb a b = true -> leb b c = true -> leb a c = true.

Lemma insert_by_In (p : K * A) l q :
  In q (insert_by leb p l) <-> q = p \/ In q l.
Proof.
  induction l as [|r l IH]; simpl.
  - intuition congruence.
  - destruct (leb (fst p) (fst r)); simpl; rewrite ?IH; intuition congruence.
Qed.

Lemma sort_by_key_In (l : list (K * A)) q :
  In q (sort_by_key leb l) <-> In q l.
Proof.
  induction l as [|p l IH]; simpl; [tauto|].
  rewrite insert_by_In, IH. intuition congruence.
Qed.

Lemma insert_by_head_min (p : K * A) l :
  head_min leb l -> head_min leb (insert_by leb p l).
Proof.
  destruct l as [|r l]; simpl; [tauto|]. intros Hr.
  destruct (leb (fst p) (fst r)) eqn:E; simpl.
  - intros q [<-|Hq]; auto. eapply leb_trans; eauto.
  - intros q Hq. apply insert_by_In in Hq. destruct Hq as [->|Hq]; auto.
    destruct (leb_total (fst p) (fst r)); congruence.
Qed.

Lemma sort_by_key_head_min (l : list (K * A)) : head_min leb (sort_by_key leb l).
Proof.
  induction l as [|p l IH]; simpl; [exact I|]. now apply insert_by_head_min.
Qed.

Lemma insert_by_length (p : K * A) l :
  List.length (insert_by leb p l) = S (List.length l).
Proof.
  induction l as [|r l IH]; simpl; [reflexivity|].
  destruct (leb (fst p) (fst r)); simpl; congruence.
Qed.

Lemma sort_by_key_length (l : list (K * A)) :
  List.length (sort_by_key leb l) = List.length l.
Proof.
  induction l as [|p l IH]; simpl; [reflexivity|].
  rewrite insert_by_length. congruence.
Qed.
End SortFacts.

Lemma key_leb_total k1 k2 : key_leb k1 k2 = true \/ key_leb k2 k1 = true.
Proof.
  unfold key_leb. destruct k1 as [a b], k2 as [c d]. simpl.
  destruct (Nat.lt_trichotomy a c) as [H|[H|H]].
  - left. apply orb_true_iff. left. now apply Nat.ltb_lt.
  - subst. destruct (Z.le_ge_cases b d).
    + left. apply orb_true_iff. right. rewrite Nat.eqb_refl. now apply Z.leb_le.
    + right. apply orb_true_iff. right. rewrite Nat.eqb_refl. now apply Z.leb_le.
  - right. apply orb_true_iff. left. now apply Nat.ltb_lt.
Qed.

Lemma key_leb_spec k1 k2 :
  key_leb k1 k2 = true <->
  fst k1 < fst k2 \/ (fst k1 = fst k2 /\ (snd k1 <= snd k2)%Z).
Proof.
  unfold key_leb.
  rewrite orb_true_iff, andb_true_iff, Nat.ltb_lt, Nat.eqb_eq, Z.leb_le. tauto.
Qed.

Lemma key_leb_trans k1 k2 k3 :
  key_leb k1 k2 = true -> key_leb k2 k3 = true -> key_leb k1 k3 = true.
Proof. rewrite !key_leb_spec. lia. Qed.

Lemma nat_leb_total (a b : nat) : Nat.leb a b = true \/ Nat.leb b a = true.
Proof. rewrite !Nat.leb_le. lia. Qed.

(** ** select_unassigned_variable *)

Lemma select_unassigned_variable_Some cw D a v :
  select_unassigned_variable cw D a = Some v ->
  In v (variables cw) /\ dict_mem a v = false
  /\ forall u, In u (variables cw) -> dict_mem a u = false ->
               key_leb (select_key cw D v) (select_key cw D u) = true.
Proof.
  unfold select_unassigned_variable.
  set (un := filter (fun var => negb (dict_mem a var)) (variables cw)).
  set (ks := map (fun var => (select_key cw D var, var)) un).
  pose proof (sort_by_key_head_min key_leb key_leb_total key_leb_trans ks) as Hmin.
  pose proof (sort_by_key_In key_leb ks) as Hin.
  destruct (sort_by_key key_leb ks) as [|[k v0] l]; simpl; [discriminate|].
  intros E. inversion E; subst v0. simpl in Hmin.
  assert (Hv : In (k, v) ks) by (apply Hin; now left).
  unfold ks in Hv. apply in_map_iff in Hv. destruct Hv as (v' & Ev & Hv').
  inversion Ev; subst v' k. unfold un in Hv'. apply filter_In in Hv'.
  destruct Hv' as [Hv1 Hv2]. apply negb_true_iff in Hv2.
  split; [auto|]. split; [auto|]. intros u Hu Hau.
  assert (Hu' : In (select_key cw D u, u) ks).
  { unfold ks. apply in_map_iff. exists u. split; auto.
    unfold un. apply filter_In. split; auto. now rewrite Hau. }
  apply Hin in Hu'. destruct Hu' as [Hu'|Hu'].
  - assert (u = v) by congruence. subst u.
    apply key_leb_spec. right. split; [reflexivity|lia].
  - apply (Hmin _ Hu').
Qed.

Lemma select_unassigned_variable_None cw D a :
  select_unassigned_variable cw D a = None <->
  forall u, In u (variables cw) -> dict_mem a u = true.
Proof.
  unfold select_unassigned_variable.
  set (un := filter (fun var => negb (dict_mem a var)) (variables cw)).
  set (ks := map (fun var => (select_key cw D var, var)) un).
  pose proof (sort_by_key_length key_leb ks) as Hlen.
  unfold ks in Hlen at 2. rewrite length_map in Hlen.
  split.
  - intros H u Hu. destruct (dict_mem a u) eqn:E; auto.
    assert (In u un) by (apply filter_In; rewrite E; auto).
    destruct un; [contradiction|].
    destruct (sort_by_key key_leb ks); simpl in *; discriminate.
  - intros H. assert (un = []).
    { unfold un. destruct (filter _ _) as [|u l] eqn:E; auto.
      assert (Hu : In u (u :: l)) by now left. rewrite <- E in Hu.
      apply filter_In in Hu. destruct Hu as [Hu1 Hu2].
      rewrite (H u Hu1) in Hu2. discriminate. }
    rewrite H0 in Hlen. simpl in Hlen.
    destruct (sort_by_key key_leb ks); simpl in *; [reflexivity|discriminate].
Qed.

(** ** Assignments as dictionaries *)

Lemma dict_mem_In a v : dict_mem a v = true <-> In v (keys a).
Proof.
  unfold dict_mem. rewrite existsb_exists. split.
  - intros (u & Hu & E). apply slot_eqb_eq in E. now subst.
  - intros H. exists v. split; auto. apply slot_eqb_refl.
Qed.

Lemma dict_mem_false a v : dict_mem a v = false <-> ~ In v (keys a).
Proof.
  rewrite <- dict_mem_In. destruct (dict_mem a v); split; congruence.
Qed.

Lemma dict_set_fresh a v w : dict_mem a v = false -> dict_set a v w = a ++ [(v, w)].
Proof. unfold dict_set. now intros ->. Qed.

Lemma dict_del_fresh a v w :
  dict_mem a v = false -> dict_del (a ++ [(v, w)]) v = Ok a.
Proof.
  intros H. unfold dict_del.
  assert (dict_mem (a ++ [(v, w)]) v = true) as ->.
  { apply dict_mem_In. unfold keys. rewrite map_app. apply in_or_app.
    right. now left. }
  rewrite filter_app. simpl. rewrite slot_eqb_refl. simpl.
  rewrite app_nil_r. apply dict_mem_false in H.
  assert (filter (fun p : Slot * string => negb (slot_eqb (fst p) v)) a = a)
    as ->; [|reflexivity].
  induction a as [|[u x] a IH]; simpl in *; [reflexivity|].
  destruct (slot_eqb u v) eqn:E.
  - apply slot_eqb_eq in E. subst. exfalso. apply H. now left.
  - simpl. f_equal. apply IH. tauto.
Qed.

Lemma filter_length_lt {A} (f g : A -> bool) l x :
  (forall y, g y = true -> f y = true) ->
  In x l -> f x = true -> g x = false ->
  List.length (filter g l) < List.length (filter f l).
Proof.
  intros Hfg. induction l as [|y l IH]; simpl; [tauto|].
  assert (Hle : List.length (filter g l) <= List.length (filter f l)).
  { clear IH. induction l as [|z l IHl]; simpl; [lia|].
    destruct (g z) eqn:Eg; [rewrite (Hfg z Eg); simpl; lia|].
    destruct (f z); simpl; lia. }
  intros [->|Hx] Hf Hg.
  - rewrite Hf, Hg. simpl. lia.
  - specialize (IH Hx Hf Hg).
    destruct (g y) eqn:Eg; [rewrite (Hfg y Eg); simpl; lia|].
    destruct (f y); simpl; lia.
Qed.

Lemma unassigned_extend cw a v w :
  In v (variables cw) -> dict_mem a v = false ->
  unassigned cw (a ++ [(v, w)]) < unassigned cw a.
Proof.
  intros Hv Ha. unfold unassigned. apply filter_length_lt with (x := v); auto.
  - intros y Hy. apply negb_true_iff in Hy. apply negb_true_iff.
    apply dict_mem_false in Hy. apply dict_mem_false. intros Hin. apply Hy.
    unfold keys. rewrite map_app. apply in_or_app. now left.
  - now rewrite Ha.
  - apply negb_false_iff, dict_mem_In. unfold keys. rewrite map_app.
    apply in_or_app. right. now left.
Qed.

Lemma assignment_ok_nil cw D : assignment_ok cw D [].
Proof. split; [constructor|]. intros v w []. Qed.

Lemma assignment_ok_extend cw D a v w :
  assignment_ok cw D a -> In v (variables cw) -> dict_mem a v = false ->
  In w (D v) -> assignment_ok cw D (a ++ [(v, w)]).
Proof.
  intros [Hnd Hin] Hv Ha Hw. split.
  - unfold keys. rewrite map_app. simpl.
    apply NoDup_app; auto.
    + constructor; [tauto|constructor].
    + intros u Hu [<-|[]]. apply dict_mem_false in Ha. contradiction.
  - intros u x Hux. apply in_app_or in Hux. destruct Hux as [H|[H|[]]]; auto.
    inversion H; subst. auto.
Qed.

Lemma assignment_complete_spec cw a :
  assignment_complete cw a = true <->
  (forall v, In v (keys a) -> In v (variables cw))
  /\ (forall v, In v (variables cw) -> In v (keys a)).
Proof.
  unfold assignment_complete.
  rewrite andb_true_iff, !forallb_forall. split; intros [H1 H2]; split; intros v Hv.
  - specialize (H1 v Hv). apply existsb_exists in H1.
    destruct H1 as (u & Hu & E). apply slot_eqb_eq in E. now subst.
  - apply dict_mem_In. auto.
  - apply existsb_exists. exists v. split; auto. apply slot_eqb_refl.
  - apply dict_mem_In. auto.
Qed.

(** ** consistent *)

Lemma letters_agree_true xv xi yv yi :
  letters_agree xv xi yv yi = Ok true <-> agree_at xv xi yv yi.
Proof.
  unfold letters_agree, agree_at. split.
  - destruct (String.get xi xv) as [a|]; [|discriminate].
    destruct (String.get yi yv) as [b|]; [|discriminate].
    intros H. inversion H as [E]. apply Ascii.eqb_eq in E. subst. eauto.
  - intros (c & -> & ->). now rewrite Ascii.eqb_refl.
Qed.

Lemma consistent_inner_true cw v1 w1 a :
  consistent_inner cw v1 w1 a = Ok true <->
  forall v2 w2 x y, In (v2, w2) a -> v1 <> v2 ->
                    overlaps cw v1 v2 = Some (x, y) -> agree_at w1 x w2 y.
Proof.
  induction a as [|[v2 w2] a IH]; simpl.
  - split; auto. intros _ ? ? ? ? [].
  - destruct (slot_eqb v1 v2) eqn:E.
    + apply slot_eqb_eq in E. subst v2. rewrite IH. split.
      * intros H v w x y [Hin|Hin] Hne Ho; eauto. inversion Hin; subst.
        congruence.
      * intros H v w x y Hin. apply H. now right.
    + apply slot_eqb_neq in E.
      destruct (overlaps cw v1 v2) as [[x y]|] eqn:Eo.
      * destruct (letters_agree w1 x w2 y) as [[]| |] eqn:El; simpl.
        -- rewrite IH. apply letters_agree_true in El. split.
           ++ intros H v w x' y' [Hin|Hin] Hne Ho; eauto.
              inversion Hin; subst. congruence.
           ++ intros H v w x' y' Hin. apply H. now right.
        -- split; [discriminate|]. intros H.
           assert (agree_at w1 x w2 y) by (eapply H; eauto; now left).
           apply letters_agree_true in H0. congruence.
        -- split; [discriminate|]. intros H.
           assert (agree_at w1 x w2 y) by (eapply H; eauto; now left).
           apply letters_agree_true in H0. congruence.
        -- split; [discriminate|]. intros H.
           assert (agree_at w1 x w2 y) by (eapply H; eauto; now left).
           apply letters_agree_true in H0. congruence.
      * rewrite IH. split.
        -- intros H v w x y [Hin|Hin] Hne Ho; eauto. inversion Hin; subst.
           congruence.
        -- intros H v w x y Hin. apply H. now right.
Qed.

Lemma consistent_outer_true cw todo a :
  consistent_outer cw todo a = Ok true <->
  (forall v w, In (v, w) todo -> String.length w = slot_length v)
  /\ (forall v1 w1 v2 w2 x y,
         In (v1, w1) todo -> In (v2, w2) a -> v1 <> v2 ->
         overlaps cw v1 v2 = Some (x, y) -> agree_at w1 x w2 y).
Proof.
  induction todo as [|[v1 w1] todo IH]; simpl.
  - split; auto. intros _. split; intros; contradiction.
  - destruct (slot_length v1 =? String.length w1) eqn:El; simpl.
    + apply Nat.eqb_eq in El.
      destruct (consistent_inner cw v1 w1 a) as [[]| |] eqn:Ei; simpl.
      * rewrite IH. pose proof (proj1 (consistent_inner_true _ _ _ _) Ei) as Hi.
        split.
        -- intros [H1 H2]. split.
           ++ intros v w [E|Hin]; auto. inversion E; subst; auto.
           ++ intros u1 x1 u2 x2 x y [E|Hin]; eauto. inversion E; subst. eauto.
        -- intros [H1 H2]. split; intros; eauto 10.
      * split; [discriminate|]. intros [_ H].
        assert (consistent_inner cw v1 w1 a = Ok true).
        { apply consistent_inner_true. intros. eapply H; eauto. }
        congruence.
      * split; [discriminate|]. intros [_ H].
        assert (consistent_inner cw v1 w1 a = Ok true).
        { apply consistent_inner_true. intros. eapply H; eauto. }
        congruence.
      * split; [discriminate|]. intros [_ H].
        assert (consistent_inner cw v1 w1 a = Ok true).
        { apply consistent_inner_true. intros. eapply H; eauto. }
        congruence.
    + apply Nat.eqb_neq in El. split; [discriminate|]. intros [H _].
      exfalso. apply El. symmetry. apply H. now left.
Qed.

(** The checker returns [True] exactly on the consistent assignments. *)
Lemma consistent_true cw a : consistent cw a = Ok true <-> consistent_prop cw a.
Proof. unfold consistent, consistent_prop. apply consistent_outer_true. Qed.

(** On words of the right lengths the checker raises no exception. *)
Lemma consistent_inner_total cw v1 w1 a :
  wf_crossword cw ->
  String.length w1 = slot_length v1 ->
  (forall v w, In (v, w) a -> String.length w = slot_length v) ->
  exists b, consistent_inner cw v1 w1 a = Ok b.
Proof.
  intros Hwf Hl1. induction a as [|[v2 w2] a IH]; simpl; intros Ha.
  - eauto.
  - destruct IH as [b Hb]; [intros; apply Ha; now right|].
    destruct (slot_eqb v1 v2); [eauto|].
    destruct (overlaps cw v1 v2) as [[x y]|] eqn:Eo; [|eauto].
    destruct (wf_range _ Hwf _ _ _ _ Eo) as [Hx Hy].
    rewrite letters_agree_Ok.
    + simpl. destruct (agreeb w1 x w2 y); eauto.
    + now rewrite Hl1.
    + rewrite (Ha v2 w2) by (now left). exact Hy.
Qed.

Lemma consistent_total cw a :
  wf_crossword cw ->
  (forall v w, In (v, w) a -> String.length w = slot_length v) ->
  exists b, consistent cw a = Ok b.
Proof.
  intros Hwf Hlen. unfold consistent.
  assert (Hall : forall todo, incl todo a ->
                 exists b, consistent_outer cw todo a = Ok b).
  { induction todo as [|[v1 w1] todo IH]; simpl; intros Hi.
    - eauto.
    - destruct (slot_length v1 =? String.length w1) eqn:El; simpl; [|eauto].
      apply Nat.eqb_eq in El.
      destruct (consistent_inner_total cw v1 w1 a Hwf (eq_sym El) Hlen)
        as [b Hb].
      rewrite Hb. simpl.
      destruct b; [|eauto]. apply IH. intros p Hp. apply Hi. now right. }
  apply Hall, incl_refl.
Qed.

(** ** order_domain_values *)

Lemma keyed_total {K A} (key : A -> res K) (l : list A) :
  (forall x, In x l -> exists k, key x = Ok k) ->
  exists ks, keyed key l = Ok ks /\ map snd ks = l.
Proof.
  induction l as [|x l IH]; simpl; intros H.
  - exists []. auto.
  - destruct (H x (or_introl eq_refl)) as [k Hk]. rewrite Hk. simpl.
    destruct IH as (ks & E & Hm); [intros; apply H; now right|].
    rewrite E. simpl. exists ((k, x) :: ks). simpl. now rewrite Hm.
Qed.

Lemma count_neighbor_values_total value overlap nvs c :
  (forall x y, overlap = Some (x, y) ->
               x < String.length value
               /\ forall nv, In nv nvs -> y < String.length nv) ->
  exists n, count_neighbor_values value overlap nvs c = Ok n.
Proof.
  revert c. induction nvs as [|nv nvs IH]; simpl; intros c H; [eauto|].
  destruct overlap as [[x y]|].
  - destruct (H x y eq_refl) as [Hx Hy].
    rewrite letters_agree_Ok by auto. simpl. apply IH.
    intros x' y' E. inversion E; subst. split; auto.
  - apply IH. intros x y E. discriminate.
Qed.

Lemma count_constrained_values_total cw D var a value :
  wf_crossword cw -> node_consistent cw D ->
  In var (variables cw) -> In value (D var) ->
  exists n, count_constrained_values cw D var a value = Ok n.
Proof.
  intros Hwf Hnc Hvar Hval. unfold count_constrained_values.
  assert (G : forall ns c, incl ns (neighbors cw var) ->
              exists n, count_constrained_loop cw D var a value ns c = Ok n).
  { induction ns as [|nb ns IH]; simpl; intros c Hi; [eauto|].
    assert (Hns : incl ns (neighbors cw var)) by (intros z Hz; apply Hi; now right).
    destruct (dict_mem a nb); [auto|].
    assert (Hnb : In nb (variables cw)).
    { apply (neighbors_spec cw var nb), Hi. now left. }
    destruct (count_neighbor_values_total value (overlaps cw var nb) (D nb) c)
      as [n Hn].
    { intros x y Eo. destruct (wf_range _ Hwf _ _ _ _ Eo) as [Hx Hy]. split.
      - now rewrite (Hnc var Hvar value Hval).
      - intros nv Hnv. now rewrite (Hnc nb Hnb nv Hnv). }
    rewrite Hn. simpl. auto. }
  apply G, incl_refl.
Qed.

(** On a node-consistent store the ordering returns the words of the
    slot's domain, in some order. *)
Lemma order_domain_values_total cw D var a :
  wf_crossword cw -> node_consistent cw D -> In var (variables cw) ->
  exists vals,
    order_domain_values cw D var a = Ok vals
    /\ forall w, In w vals <-> In w (D var).
Proof.
  intros Hwf Hnc Hvar. unfold order_domain_values.
  destruct (keyed_total (count_constrained_values cw D var a) (D var))
    as (ks & E & Hm).
  { intros w Hw. now apply count_constrained_values_total. }
  rewrite E. simpl. eexists. split; [reflexivity|].
  intros w. rewrite <- Hm, !in_map_iff.
  split; intros (p & Hp & Hin); exists p; split; auto;
    now apply (sort_by_key_In Nat.leb ks).
Qed.

(** ** The search on a store at the fixed point of AC-3 *)

Section Search.
Variable cw : Crossword.
Hypothesis Hwf : wf_crossword cw.
Variable D : Domains.
Hypothesis Hnc : node_consistent cw D.
Hypothesis Hac : arc_consistent cw D.

Lemma try_values_frame (rec : Domains -> Assignment -> res BtResult) var :
  (forall a out, rec D a = Ok out -> frame D a out) ->
  forall vals a out,
    dict_mem a var = false ->
    try_values cw rec var vals D a = Ok out -> frame D a out.
Proof.
  intros Hrec. induction vals as [|value vals IH]; simpl; intros a out Hfresh H.
  - inversion H; subst. simpl.
    split; [reflexivity|]. split; [reflexivity|discriminate].
  - apply bind_Ok in H. destruct H as (c & _ & H). destruct c; [|auto].
    rewrite (ac3_fixed cw Hwf D Hnc Hac) in H. simpl in H.
    rewrite (dict_set_fresh _ _ _ Hfresh) in H.
    destruct (negb (some_domain_empty cw D)).
    + apply bind_Ok in H. destruct H as ([[r D2] a2] & Hr & H).
      apply Hrec in Hr. destruct Hr as (-> & Hnone & Hsome).
      destruct r as [x|].
      * inversion H; subst. simpl.
        split; [reflexivity|]. split; [discriminate|exact Hsome].
      * rewrite (Hnone eq_refl), (dict_del_fresh _ _ _ Hfresh) in H. simpl in H.
        auto.
    + rewrite (dict_del_fresh _ _ _ Hfresh) in H. simpl in H. auto.
Qed.

Lemma backtrack_frame :
  forall depth a out, backtrack cw depth D a = Ok out -> frame D a out.
Proof.
  induction depth as [|depth IH]; simpl; intros a out H; [discriminate|].
  destruct (assignment_complete cw a).
  - inversion H; subst. simpl.
    split; [reflexivity|]. split; [discriminate|].
    intros x E. now inversion E.
  - destruct (select_unassigned_variable cw D a) as [var|] eqn:Es;
      [|discriminate].
    apply select_unassigned_variable_Some in Es. destruct Es as (_ & Hfresh & _).
    apply bind_Ok in H. destruct H as (vals & _ & H).
    eapply try_values_frame; eauto.
Qed.

(** The search returns: no exception and enough depth, from every
    assignment it can build. *)
Lemma try_values_total (rec : Domains -> Assignment -> res BtResult) var :
  In var (variables cw) ->
  forall a,
    assignment_ok cw D a -> dict_mem a var = false ->
    (forall value, In value (D var) ->
                   exists out, rec D (a ++ [(var, value)]) = Ok out
                               /\ frame D (a ++ [(var, value)]) out) ->
    forall vals, incl vals (D var) ->
    exists out, try_values cw rec var vals D a = Ok out.
Proof.
  intros Hvar a Hok Hfresh Hrec.
  assert (Hlen : forall v w, In (v, w) a -> String.length w = slot_length v).
  { intros v w Hin. destruct Hok as [_ Hok]. destruct (Hok v w Hin). auto. }
  destruct (consistent_total cw a Hwf Hlen) as [c Hc].
  induction vals as [|value vals IH]; simpl; intros Hi; [eauto|].
  assert (Hi' : incl vals (D var)) by (intros z Hz; apply Hi; now right).
  rewrite Hc. simpl. destruct c; [|auto].
  rewrite (ac3_fixed cw Hwf D Hnc Hac). simpl.
  rewrite (dict_set_fresh _ _ _ Hfresh).
  destruct (negb (some_domain_empty cw D)).
  - destruct (Hrec value) as ([[r D2] a2] & Hr & Hf); [apply Hi; now left|].
    rewrite Hr. simpl. destruct Hf as (-> & Hnone & Hsome).
    destruct r as [x|]; [eauto|].
    rewrite (Hnone eq_refl), (dict_del_fresh _ _ _ Hfresh). simpl. auto.
  - rewrite (dict_del_fresh _ _ _ Hfresh). simpl. auto.
Qed.

Lemma incomplete_has_unassigned a :
  assignment_ok cw D a -> assignment_complete cw a = false ->
  exists var, select_unassigned_variable cw D a = Some var.
Proof.
  intros [_ Hok] Hc.
  destruct (select_unassigned_variable cw D a) as [var|] eqn:Es; [eauto|].
  exfalso. rewrite select_unassigned_variable_None in Es.
  assert (assignment_complete cw a = true); [|congruence].
  apply assignment_complete_spec. split.
  - intros v Hv. unfold keys in Hv. apply in_map_iff in Hv.
    destruct Hv as ([u w] & <- & Hin). simpl. destruct (Hok u w Hin). auto.
  - intros v Hv. apply dict_mem_In. auto.
Qed.

Lemma backtrack_total :
  forall depth a,
    assignment_ok cw D a -> unassigned cw a < depth ->
    exists out, backtrack cw depth D a = Ok out.
Proof.
  induction depth as [|depth IH]; intros a Hok Hd; [lia|]. simpl.
  destruct (assignment_complete cw a) eqn:Ec; [eauto|].
  destruct (incomplete_has_unassigned a Hok Ec) as [var Es]. rewrite Es.
  apply select_unassigned_variable_Some in Es. destruct Es as (Hvar & Hfresh & _).
  destruct (order_domain_values_total cw D var a Hwf Hnc Hvar) as (vals & E & Hv).
  rewrite E. simpl. apply try_values_total; auto.
  - intros value Hval.
    destruct (IH (a ++ [(var, value)])) as [out Hout].
    + now apply assignment_ok_extend.
    + pose proof (unassigned_extend cw a var value Hvar Hfresh). lia.
    + exists out. split; auto. eapply backtrack_frame; eauto.
  - intros w Hw. now apply Hv.
Qed.
End Search.

(** ** Solutions and their preservation *)

Lemma revise_sol_in cw s D D' x y revised :
  wf_crossword cw -> solution cw s -> node_consistent cw D ->
  In x (variables cw) -> In y (variables cw) ->
  sol_in cw s D -> revise cw D x y = Ok (D', revised) -> sol_in cw s D'.
Proof.
  intros Hwf [_ Hs] Hnc Hx Hy Hin Hr.
  destruct (revise_spec cw D x y Hwf Hnc Hx Hy)
    as (D1 & r1 & E & Ho & Hf & Hnone & _).
  rewrite Hr in E. inversion E; subst D1 r1. clear E.
  intros z Hz. destruct (Slot_eq_dec z x) as [->|Hzx].
  - destruct (overlaps cw x y) as [[xi yi]|] eqn:Eo.
    + rewrite (Hf _ _ eq_refl). apply filter_In. split; auto.
      apply supportedb_true_iff. exists (s y). split; auto.
      apply Hs; auto. intros ->. rewrite (wf_irrefl _ Hwf) in Eo. discriminate.
    + rewrite Hnone; auto.
  - rewrite Ho; auto.
Qed.

Lemma ac3_loop_sol_in cw s :
  wf_crossword cw -> solution cw s ->
  forall fuel D q D',
    node_consistent cw D -> queue_ok cw q -> sol_in cw s D ->
    ac3_loop cw fuel D q = Ok D' -> sol_in cw s D'.
Proof.
  intros Hwf Hs. induction fuel as [|fuel IH]; intros D q D' Hnc Hq Hin H.
  - destruct q as [|[x y] q]; simpl in H; [|discriminate].
    inversion H; subst; assumption.
  - destruct q as [|[x y] q]; simpl in H; [inversion H; subst; assumption|].
    apply bind_Ok in H. destruct H as ([D1 r1] & Hr & H).
    destruct (Hq (x, y) (or_introl eq_refl)) as [Hx Hy]. simpl in Hx, Hy.
    assert (Hnc1 : node_consistent cw D1).
    { eapply node_consistent_incl; eauto. eapply revise_dom_incl; eauto. }
    assert (Hin1 : sol_in cw s D1)
      by (apply (revise_sol_in cw s D D1 x y r1); auto).
    pose proof (queue_ok_step cw x y q r1 Hq) as Hq1.
    destruct r1; eapply IH; eauto.
Qed.

Lemma some_domain_empty_false cw s D :
  sol_in cw s D -> some_domain_empty cw D = false.
Proof.
  intros Hin. unfold some_domain_empty.
  destruct (existsb _ _) eqn:E; auto.
  apply existsb_exists in E. destruct E as (x & Hx & El).
  apply Nat.eqb_eq in El. specialize (Hin x Hx).
  destruct (D x); [contradiction|discriminate].
Qed.

Section SearchSuccess.
Variable cw : Crossword.
Hypothesis Hwf : wf_crossword cw.
Variable D : Domains.
Hypothesis Hnc : node_consistent cw D.
Hypothesis Hac : arc_consistent cw D.
Variable s : Slot -> string.
Hypothesis Hsol : solution cw s.
Hypothesis Hin : sol_in cw s D.

Lemma follows_consistent a :
  assignment_ok cw D a -> follows s a -> consistent cw a = Ok true.
Proof.
  intros [_ Hok] Hf. apply consistent_true. destruct Hsol as [Hs1 Hs2]. split.
  - intros v w Hvw. rewrite (Hf v w Hvw). apply Hs1. now destruct (Hok v w Hvw).
  - intros v1 w1 v2 w2 x y H1 H2 Hne Ho.
    rewrite (Hf _ _ H1), (Hf _ _ H2).
    apply Hs2; auto; [now destruct (Hok _ _ H1)|now destruct (Hok _ _ H2)].
Qed.

Lemma try_values_success (rec : Domains -> Assignment -> res BtResult) var a :
  In var (variables cw) ->
  assignment_ok cw D a -> follows s a -> dict_mem a var = false ->
  (forall value, In value (D var) ->
                 exists out, rec D (a ++ [(var, value)]) = Ok out
                             /\ frame D (a ++ [(var, value)]) out) ->
  (exists r, rec D (a ++ [(var, s var)]) = Ok (Some r, D, r)) ->
  forall vals, incl vals (D var) -> In (s var) vals ->
  exists r, try_values cw rec var vals D a = Ok (Some r, D, r).
Proof.
  intros Hvar Hok Hf Hfresh Hrec [r0 Hr0].
  pose proof (follows_consistent a Hok Hf) as Hc.
  induction vals as [|value vals IH]; simpl; intros Hi Hs; [contradiction|].
  assert (Hi' : incl vals (D var)) by (intros z Hz; apply Hi; now right).
  rewrite Hc. simpl.
  rewrite (ac3_fixed cw Hwf D Hnc Hac), (some_domain_empty_false cw s D Hin).
  simpl. rewrite (dict_set_fresh _ _ _ Hfresh).
  destruct (string_dec value (s var)) as [->|Hne].
  - rewrite Hr0. simpl. eauto.
  - destruct (Hrec value) as ([[r D2] a2] & Hr & Hfr); [apply Hi; now left|].
    rewrite Hr. simpl. destruct Hfr as (-> & Hnone & Hsome).
    destruct r as [x|].
    + rewrite (Hsome x eq_refl). eauto.
    + rewrite (Hnone eq_refl), (dict_del_fresh _ _ _ Hfresh). simpl.
      apply IH; auto. destruct Hs as [Hs|Hs]; [congruence|exact Hs].
Qed.

Lemma follows_extend a var :
  follows s a -> follows s (a ++ [(var, s var)]).
Proof.
  intros Hf v w Hvw. apply in_app_or in Hvw.
  destruct Hvw as [H|[H|[]]]; auto. now inversion H.
Qed.

(** Along the solution the search cannot fail. *)
Lemma backtrack_success :
  forall depth a,
    assignment_ok cw D a -> follows s a -> unassigned cw a < depth ->
    exists r, backtrack cw depth D a = Ok (Some r, D, r).
Proof.
  induction depth as [|depth IH]; intros a Hok Hf Hd; [lia|]. simpl.
  destruct (assignment_complete cw a) eqn:Ec; [eauto|].
  destruct (incomplete_has_unassigned cw D a Hok Ec) as [var Es]. rewrite Es.
  apply select_unassigned_variable_Some in Es. destruct Es as (Hvar & Hfresh & _).
  destruct (order_domain_values_total cw D var a Hwf Hnc Hvar) as (vals & E & Hv).
  rewrite E. simpl.
  pose proof (unassigned_extend cw a var) as Hlt.
  apply try_values_success; auto.
  - intros value Hval.
    destruct (backtrack_total cw Hwf D Hnc Hac depth (a ++ [(var, value)]))
      as [out Hout].
    + now apply assignment_ok_extend.
    + specialize (Hlt value Hvar Hfresh). lia.
    + exists out. split; auto. eapply backtrack_frame; eauto.
  - apply IH.
    + apply assignment_ok_extend; auto.
    + now apply follows_extend.
    + specialize (Hlt (s var) Hvar Hfresh). lia.
  - intros w Hw. now apply Hv.
  - apply Hv. auto.
Qed.
End SearchSuccess.

(** ** solve *)

Lemma unassigned_nil cw : unassigned cw [] = List.length (variables cw).
Proof.
  unfold unassigned. unfold dict_mem. simpl.
  induction (variables cw) as [|v l IH]; simpl; [reflexivity|].
  now rewrite IH.
Qed.

(** The store [solve] hands to the search is node- and arc-consistent. *)
Lemma solve_store cw :
  wf_crossword cw ->
  exists D1,
    ac3 cw (enforce_node_consistency cw (init_domains cw)) None
    = Ok (D1, negb (some_domain_empty cw D1))
    /\ dom_incl D1 (enforce_node_consistency cw (init_domains cw))
    /\ node_consistent cw D1 /\ arc_consistent cw D1.
Proof.
  intros Hwf.
  pose proof (enforce_node_consistency_nc cw (init_domains cw)) as Hnc.
  destruct (ac3_default_spec cw Hwf _ Hnc) as (D1 & E & Hi & Hac).
  exists D1. repeat split; auto. eapply node_consistent_incl; eauto.
Qed.

Lemma solve_complete cw s :
  wf_crossword cw -> solution cw s ->
  exists r, solve cw = Ok (Some r).
Proof.
  intros Hwf Hsol.
  destruct (solve_store cw Hwf) as (D1 & E & Hi & Hnc & Hac).
  assert (Hin : sol_in cw s D1).
  { unfold ac3 in E. apply bind_Ok in E. destruct E as (D' & El & E).
    assert (D' = D1) by (destruct (some_domain_empty cw D'); now inversion E).
    subst D'.
    refine (ac3_loop_sol_in cw s Hwf Hsol _ _ _ _
              (enforce_node_consistency_nc _ _) (queue_ok_all_arcs cw) _ El).
    intros x Hx. apply enforce_node_consistency_In; auto.
    destruct Hsol as [Hs _]. apply (Hs x Hx). }
  destruct (backtrack_success cw Hwf D1 Hnc Hac s Hsol Hin
              (S (List.length (variables cw))) [])
    as [r Hr].
  - apply assignment_ok_nil.
  - intros v w [].
  - rewrite unassigned_nil. lia.
  - exists r. unfold solve, solve_state. rewrite E. cbn [bind].
    rewrite Hr. reflexivity.
Qed.

(** ** What the search does to the store, in every state *)

Lemma ac3_dom_incl cw D arcs D' b :
  ac3 cw D arcs = Ok (D', b) -> dom_incl D' D.
Proof.
  unfold ac3. intros H. apply bind_Ok in H. destruct H as (D1 & El & H).
  apply ac3_loop_incl in El.
  destruct (some_domain_empty cw D1); inversion H; subst; exact El.
Qed.

Lemma try_values_incl cw (rec : Domains -> Assignment -> res BtResult) var :
  (forall D a r D' a', rec D a = Ok (r, D', a') -> dom_incl D' D) ->
  forall vals D a r D' a',
    try_values cw rec var vals D a = Ok (r, D', a') -> dom_incl D' D.
Proof.
  intros Hrec. induction vals as [|value vals IH]; simpl; intros D a r D' a' H.
  - inversion H; subst. apply dom_incl_refl.
  - apply bind_Ok in H. destruct H as (c & _ & H). destruct c; [|eauto].
    apply bind_Ok in H. destruct H as ([D1 ok] & Hac & H).
    apply ac3_dom_incl in Hac. destruct ok.
    + apply bind_Ok in H. destruct H as ([[r2 D2] a2] & Hr & H).
      apply Hrec in Hr. destruct r2.
      * inversion H; subst. eapply dom_incl_trans; eauto.
      * apply bind_Ok in H. destruct H as (a3 & _ & H). apply IH in H.
        eapply dom_incl_trans; [exact H|]. eapply dom_incl_trans; eauto.
    + apply bind_Ok in H. destruct H as (a3 & _ & H). apply IH in H.
      eapply dom_incl_trans; eauto.
Qed.

Lemma backtrack_incl cw :
  forall depth D a r D' a',
    backtrack cw depth D a = Ok (r, D', a') -> dom_incl D' D.
Proof.
  induction depth as [|depth IH]; simpl; intros D a r D' a' H; [discriminate|].
  destruct (assignment_complete cw a).
  - inversion H; subst. apply dom_incl_refl.
  - destruct (select_unassigned_variable cw D a) as [var|]; [|discriminate].
    apply bind_Ok in H. destruct H as (vals & _ & H).
    eapply try_values_incl; eauto.
Qed.

(** On a store at the fixed point of AC-3 the loop over the candidates
    leaves the store as it is, whatever the assignment. *)
Lemma try_values_store cw (rec : Domains -> Assignment -> res BtResult) var D :
  wf_crossword cw -> node_consistent cw D -> arc_consistent cw D ->
  (forall a r D' a', rec D a = Ok (r, D', a') -> D' = D) ->
  forall vals a r D' a',
    try_values cw rec var vals D a = Ok (r, D', a') -> D' = D.
Proof.
  intros Hwf Hnc Hac Hrec.
  induction vals as [|value vals IH]; simpl; intros a r D' a' H.
  - now inversion H.
  - apply bind_Ok in H. destruct H as (c & _ & H). destruct c; [|eauto].
    rewrite (ac3_fixed cw Hwf D Hnc Hac) in H. simpl in H.
    destruct (negb (some_domain_empty cw D)).
    + apply bind_Ok in H. destruct H as ([[r2 D2] a2] & Hr & H).
      apply Hrec in Hr. subst D2. destruct r2.
      * now inversion H.
      * apply bind_Ok in H. destruct H as (a3 & _ & H). eauto.
    + apply bind_Ok in H. destruct H as (a3 & _ & H). eauto.
Qed.

Lemma backtrack_store cw D :
  wf_crossword cw -> node_consistent cw D -> arc_consistent cw D ->
  forall depth a r D' a', backtrack cw depth D a = Ok (r, D', a') -> D' = D.
Proof.
  intros Hwf Hnc Hac.
  induction depth as [|depth IH]; simpl; intros a r D' a' H; [discriminate|].
  destruct (assignment_complete cw a).
  - now inversion H.
  - destruct (select_unassigned_variable cw D a) as [var|]; [|discriminate].
    apply bind_Ok in H. destruct H as (vals & _ & H).
    eapply try_values_store; eauto.
Qed.

Lemma some_domain_empty_spec cw D :
  some_domain_empty cw D = true <->
  exists x, In x (variables cw) /\ D x = [].
Proof.
  unfold some_domain_empty. rewrite existsb_exists.
  split; intros (x & Hx & H); exists x; split; auto.
  - apply Nat.eqb_eq in H. now destruct (D x).
  - now rewrite H.
Qed.

Lemma dict_get_In a v w : NoDup (keys a) -> In (v, w) a -> dict_get a v = w.
Proof.
  unfold dict_get. induction a as [|[u x] a IH]; simpl; intros Hnd Hin; [tauto|].
  inversion Hnd as [|? ? Hnotin Hnd']; subst.
  destruct Hin as [E|Hin].
  - inversion E; subst. now rewrite slot_eqb_refl.
  - destruct (slot_eqb u v) eqn:Eq; auto.
    apply slot_eqb_eq in Eq. subst. exfalso. apply Hnotin.
    unfold keys. apply in_map_iff. exists (v, w). auto.
Qed.

(** A complete assignment that passes the checker and uses vocabulary
    words is a solution. *)
Lemma solution_of_assignment cw a :
  NoDup (keys a) -> assignment_complete cw a = true ->
  consistent cw a = Ok true ->
  (forall v w, In (v, w) a -> In w (words cw)) ->
  solution cw (dict_get a).
Proof.
  intros Hnd Hc Hcons Hvoc.
  apply assignment_complete_spec in Hc. destruct Hc as [_ Hall].
  apply consistent_true in Hcons. destruct Hcons as [Hlen Hov].
  assert (Hget : forall x, In x (variables cw) -> In (x, dict_get a x) a).
  { intros x Hx. specialize (Hall x Hx). unfold keys in Hall.
    apply in_map_iff in Hall. destruct Hall as ([u w] & <- & Hin). simpl.
    now rewrite (dict_get_In a u w Hnd Hin). }
  split.
  - intros x Hx. specialize (Hget x Hx). split; eauto.
  - intros x y xi yi Hx Hy Hne Ho. eapply Hov; eauto.
Qed.

Lemma TwoSlots_wf vocabulary : wf_crossword (TwoSlots.grid vocabulary).
Proof.
  split; simpl; unfold TwoSlots.ov.
  - intros x. destruct (Slot_eq_dec x TwoSlots.A) as [->|];
      [destruct (Slot_eq_dec TwoSlots.A TwoSlots.B); [discriminate|reflexivity]|].
    destruct (Slot_eq_dec x TwoSlots.B); [|reflexivity].
    destruct (Slot_eq_dec x TwoSlots.A); [contradiction|reflexivity].
  - intros x y i j.
    destruct (Slot_eq_dec x TwoSlots.A) as [->|Hx].
    + destruct (Slot_eq_dec y TwoSlots.B) as [->|]; [|discriminate].
      intros H. inversion H; subst.
      destruct (Slot_eq_dec TwoSlots.B TwoSlots.A); [discriminate|].
      destruct (Slot_eq_dec TwoSlots.B TwoSlots.B); [|contradiction].
      destruct (Slot_eq_dec TwoSlots.A TwoSlots.A); [reflexivity|contradiction].
    + destruct (Slot_eq_dec x TwoSlots.B) as [->|]; [|discriminate].
      destruct (Slot_eq_dec y TwoSlots.A) as [->|]; [|discriminate].
      intros H. inversion H; subst.
      destruct (Slot_eq_dec TwoSlots.A TwoSlots.A); [|contradiction].
      destruct (Slot_eq_dec TwoSlots.A TwoSlots.B); [discriminate|reflexivity].
  - intros x y i j.
    destruct (Slot_eq_dec x TwoSlots.A) as [->|Hx].
    + destruct (Slot_eq_dec y TwoSlots.B) as [->|]; [|discriminate].
      intros H. inversion H; subst. simpl. lia.
    + destruct (Slot_eq_dec x TwoSlots.B) as [->|]; [|discriminate].
      destruct (Slot_eq_dec y TwoSlots.A) as [->|]; [|discriminate].
      intros H. inversion H; subst. simpl. lia.
Qed.

Lemma backtrack_unfold cw depth D a :
  backtrack cw (S depth) D a
  = if assignment_complete cw a then Ok (Some a, D, a)
    else match select_unassigned_variable cw D a with
         | None => Raise KeyError
         | Some var =>
             vals <- order_domain_values cw D var a ;;
             try_values cw (backtrack cw depth) var vals D a
         end.
Proof. reflexivity. Qed.

(** * The claims of the specification *)

(** ** C6: the contract of [revise] *)

(** C6. On a well-formed structural model and node-consistent domains,
    [revise(x, y)] returns (no exception); it keeps in the domain of [x]
    exactly the words that have a supporting word in the domain of [y] at
    the overlap indices, leaves every other domain (the one of [y]
    included) as it is, is a no-op answering [False] when no overlap is
    defined, and answers [True] iff at least one word was removed. *)
Theorem revise_contract cw D x y :
  wf_crossword cw -> node_consistent cw D ->
  In x (variables cw) -> In y (variables cw) ->
  exists D' revised,
    revise cw D x y = Ok (D', revised)
    /\ (forall xi yi, overlaps cw x y = Some (xi, yi) ->
        forall w, In w (D' x) <->
                  In w (D x) /\ exists yv, In yv (D y) /\ agree_at w xi yv yi)
    /\ (forall z, z <> x -> D' z = D z)
    /\ (overlaps cw x y = None -> D' = D /\ revised = false)
    /\ (revised = true <-> exists w, In w (D x) /\ ~ In w (D' x)).
Proof.
  intros Hwf Hnc Hx Hy.
  destruct (revise_spec cw D x y Hwf Hnc Hx Hy)
    as (D' & revised & E & Ho & Hf & Hnone & Hfalse & Hrem).
  exists D', revised. split; [exact E|]. split; [|split; [exact Ho|split]].
  - intros xi yi Eo w. rewrite (Hf _ _ Eo), filter_In, supportedb_true_iff.
    tauto.
  - intros Eo. split; [auto|]. unfold revise in E. rewrite Eo in E.
    now inversion E.
  - exact Hrem.
Qed.

Lemma revise_contract_witness :
  let cw := TwoSlots.grid ["AB"; "CD"; "DA"] in
  let D := enforce_node_consistency cw (init_domains cw) in
  exists D' revised,
    revise cw D TwoSlots.A TwoSlots.B = Ok (D', revised)
    /\ (forall xi yi, overlaps cw TwoSlots.A TwoSlots.B = Some (xi, yi) ->
        forall w, In w (D' TwoSlots.A) <->
                  In w (D TwoSlots.A)
                  /\ exists yv, In yv (D TwoSlots.B) /\ agree_at w xi yv yi)
    /\ (forall z, z <> TwoSlots.A -> D' z = D z)
    /\ (overlaps cw TwoSlots.A TwoSlots.B = None -> D' = D /\ revised = false)
    /\ (revised = true <-> exists w, In w (D TwoSlots.A) /\ ~ In w (D' TwoSlots.A)).
Proof.
  intros cw D.
  apply (revise_contract cw D TwoSlots.A TwoSlots.B).
  - apply TwoSlots_wf.
  - apply enforce_node_consistency_nc.
  - simpl. auto.
  - simpl. auto.
Defined.

(** ** C7: node consistency *)

(** C7. After [enforce_node_consistency] the domain of every slot holds
    exactly the vocabulary words of the slot's length, and the length
    invariant survives every later operation: [revise], [ac3], the search
    and [solve] only return stores included in the one they started from. *)
Theorem node_consistency_invariant cw D :
  node_consistent cw D ->
  (forall x w, In x (variables cw) ->
     (In w (enforce_node_consistency cw (init_domains cw) x) <->
      In w (words cw) /\ String.length w = slot_length x))
  /\ (forall x y D' revised,
         revise cw D x y = Ok (D', revised) ->
         dom_incl D' D /\ node_consistent cw D')
  /\ (forall arcs D' b,
         ac3 cw D arcs = Ok (D', b) -> dom_incl D' D /\ node_consistent cw D')
  /\ (forall depth a r D' a',
         backtrack cw depth D a = Ok (r, D', a') ->
         dom_incl D' D /\ node_consistent cw D')
  /\ (forall r D2, solve_state cw = Ok (r, D2) -> node_consistent cw D2).
Proof.
  intros Hnc. split; [|split; [|split; [|split]]].
  - intros x w Hx. now apply enforce_node_consistency_In.
  - intros x y D' revised H. apply revise_dom_incl in H.
    split; auto. eapply node_consistent_incl; eauto.
  - intros arcs D' b H. apply ac3_dom_incl in H.
    split; auto. eapply node_consistent_incl; eauto.
  - intros depth a r D' a' H. apply backtrack_incl in H.
    split; auto. eapply node_consistent_incl; eauto.
  - intros r D2 H. unfold solve_state in H.
    apply bind_Ok in H. destruct H as ([D1 b] & Hac & H).
    apply bind_Ok in H. destruct H as ([[r' D2'] a'] & Hbt & H).
    inversion H; subst. apply ac3_dom_incl in Hac. apply backtrack_incl in Hbt.
    eapply node_consistent_incl; [exact Hbt|].
    eapply node_consistent_incl; [exact Hac|].
    apply enforce_node_consistency_nc.
Qed.

Lemma node_consistency_invariant_witness :
  let cw := TwoSlots.grid ["AB"; "CAT"; "DA"] in
  let D := enforce_node_consistency cw (init_domains cw) in
  node_consistent cw D
  /\ (forall w, In w (D TwoSlots.A) <->
                In w ["AB"; "CAT"; "DA"] /\ String.length w = 2).
Proof.
  intros cw D.
  assert (Hnc : node_consistent cw D) by apply enforce_node_consistency_nc.
  split; [exact Hnc|].
  intros w.
  apply (proj1 (node_consistency_invariant cw D Hnc) TwoSlots.A w).
  simpl. auto.
Defined.

(** ** C8: variable selection *)

(** C8. When some slot is unassigned, [select_unassigned_variable] returns
    an unassigned slot whose domain is smallest among the unassigned slots
    and, among those of that size, one with the most neighbors; when every
    slot is assigned it returns [None]. *)
Theorem select_unassigned_variable_mrv_degree cw D a :
  ((exists u, In u (variables cw) /\ dict_mem a u = false) ->
   exists v,
     select_unassigned_variable cw D a = Some v
     /\ In v (variables cw) /\ dict_mem a v = false
     /\ forall u, In u (variables cw) -> dict_mem a u = false ->
          List.length (D v) <= List.length (D u)
          /\ (List.length (D v) = List.length (D u) ->
              List.length (neighbors cw u) <= List.length (neighbors cw v)))
  /\ ((forall u, In u (variables cw) -> dict_mem a u = true) ->
      select_unassigned_variable cw D a = None).
Proof.
  split.
  - intros (u0 & Hu0 & Ha0).
    destruct (select_unassigned_variable cw D a) as [v|] eqn:Es.
    + exists v. split; [reflexivity|].
      apply select_unassigned_variable_Some in Es.
      destruct Es as (Hv & Hav & Hmin). split; [auto|]. split; [auto|].
      intros u Hu Hau. specialize (Hmin u Hu Hau).
      apply key_leb_spec in Hmin. unfold select_key in Hmin. simpl in Hmin.
      lia.
    + rewrite select_unassigned_variable_None in Es.
      rewrite (Es u0 Hu0) in Ha0. discriminate.
  - apply select_unassigned_variable_None.
Qed.

Lemma select_unassigned_variable_mrv_degree_witness :
  let cw := TwoSlots.grid ["AB"; "CD"; "DA"] in
  let D := dom_set (init_domains cw) TwoSlots.B ["DA"] in
  exists v,
    select_unassigned_variable cw D [] = Some v
    /\ In v (variables cw) /\ dict_mem [] v = false
    /\ forall u, In u (variables cw) -> dict_mem [] u = false ->
         List.length (D v) <= List.length (D u)
         /\ (List.length (D v) = List.length (D u) ->
             List.length (neighbors cw u) <= List.length (neighbors cw v)).
Proof.
  intros cw D.
  apply (proj1 (select_unassigned_variable_mrv_degree cw D [])).
  exists TwoSlots.A. split; [simpl; auto|reflexivity].
Defined.

(** ** C5: the return contract of [ac3] *)

(** C5, as the code has it.  On a well-formed structural model, a
    node-consistent store and a queue of arcs between slots, [ac3] returns
    (the loop terminates, no exception); it only removes words; it answers
    [False] exactly when some slot's domain is empty at the end and [True]
    otherwise, in which case every domain is non-empty; and the final store
    is arc-consistent when the initial queue holds every arc of the model,
    as the default queue does. *)
Theorem ac3_contract cw D arcs :
  wf_crossword cw -> node_consistent cw D ->
  queue_ok cw (initial_queue cw arcs) ->
  exists D' b,
    ac3 cw D arcs = Ok (D', b)
    /\ dom_incl D' D
    /\ (b = false <-> exists x, In x (variables cw) /\ D' x = [])
    /\ (b = true ->
        (forall x, In x (variables cw) -> D' x <> [])
        /\ (incl (all_arcs cw) (initial_queue cw arcs) -> arc_consistent cw D')).
Proof.
  intros Hwf Hnc Hq. unfold ac3. fold (initial_queue cw arcs).
  destruct (ac3_loop_correct cw Hwf
              (ac3_measure cw D (initial_queue cw arcs)) D
              (initial_queue cw arcs) (le_n _) Hnc Hq)
    as (D' & E & Hinc & Hac).
  rewrite E. simpl. exists D', (negb (some_domain_empty cw D')).
  split; [destruct (some_domain_empty cw D'); reflexivity|].
  split; [exact Hinc|]. split; [|split].
  - rewrite negb_false_iff. apply some_domain_empty_spec.
  - apply negb_true_iff in H. intros x Hx Hempty.
    assert (some_domain_empty cw D' = true); [|congruence].
    apply some_domain_empty_spec. eauto.
  - intros Hall. apply Hac. intros x y Hx Hy. left.
    apply Hall. now apply all_arcs_In.
Qed.

Lemma ac3_contract_witness :
  let cw := TwoSlots.grid ["AB"; "CD"; "DA"] in
  let D := enforce_node_consistency cw (init_domains cw) in
  exists D' b,
    ac3 cw D None = Ok (D', b)
    /\ dom_incl D' D
    /\ (b = false <-> exists x, In x (variables cw) /\ D' x = [])
    /\ (b = true ->
        (forall x, In x (variables cw) -> D' x <> [])
        /\ (incl (all_arcs cw) (initial_queue cw None) -> arc_consistent cw D')).
Proof.
  intros cw D.
  apply (ac3_contract cw D None).
  - apply TwoSlots_wf.
  - apply enforce_node_consistency_nc.
  - apply queue_ok_all_arcs.
Defined.

(** C5, as the specification states it, fails for an explicit queue: with
    the empty queue [ac3] answers [True] on the two-slot grid although the
    word "AB" of the across slot has no support in the domain of the down
    slot. *)
Lemma ac3_explicit_queue_not_arc_consistent :
  ~ (forall cw D arcs D',
        wf_crossword cw -> node_consistent cw D ->
        ac3 cw D (Some arcs) = Ok (D', true) -> arc_consistent cw D').
Proof.
  intros H.
  pose (cw := TwoSlots.grid ["AB"; "CD"]).
  pose (D := enforce_node_consistency cw (init_domains cw)).
  assert (Hac : arc_consistent cw D).
  { apply (H cw D [] D).
    - apply TwoSlots_wf.
    - apply enforce_node_consistency_nc.
    - vm_compute. reflexivity. }
  assert (HA : In TwoSlots.A (variables cw)) by (simpl; auto).
  assert (HB : In TwoSlots.B (neighbors cw TwoSlots.A)) by (vm_compute; auto).
  assert (Ho : overlaps cw TwoSlots.A TwoSlots.B = Some (0, 1)) by reflexivity.
  assert (Hw : In "AB" (D TwoSlots.A)) by (vm_compute; auto).
  destruct (Hac _ _ HA HB _ _ Ho _ Hw) as (yv & Hyv & c & Hc1 & Hc2).
  vm_compute in Hyv. simpl in Hc1. inversion Hc1; subst c.
  destruct Hyv as [<-|[<-|[]]]; simpl in Hc2; discriminate.
Qed.

(** ** C9: idempotence of [ac3] *)

(** C9. On a well-formed structural model and a node-consistent store,
    after a run of [ac3()] that answers [True], a second run of [ac3()]
    answers [True] and returns the very same store. *)
Theorem ac3_idempotent cw D D1 :
  wf_crossword cw -> node_consistent cw D ->
  ac3 cw D None = Ok (D1, true) ->
  ac3 cw D1 None = Ok (D1, true).
Proof.
  intros Hwf Hnc H.
  destruct (ac3_default_spec cw Hwf D Hnc) as (D' & E & Hinc & Hac).
  rewrite H in E. inversion E as [[HD Hb]]. subst D'.
  assert (Hnc1 : node_consistent cw D1)
    by (eapply node_consistent_incl; eauto).
  rewrite (ac3_fixed cw Hwf D1 Hnc1 Hac). now rewrite <- Hb.
Qed.

Lemma ac3_idempotent_witness :
  let cw := TwoSlots.grid ["AB"; "CD"; "DA"] in
  let D := enforce_node_consistency cw (init_domains cw) in
  let D1 := dom_set (dom_set D TwoSlots.A ["AB"; "DA"]) TwoSlots.B ["CD"; "DA"] in
  ac3 cw D None = Ok (D1, true) /\ ac3 cw D1 None = Ok (D1, true).
Proof.
  intros cw D D1.
  assert (H : ac3 cw D None = Ok (D1, true)) by (vm_compute; reflexivity).
  split; [exact H|].
  apply (ac3_idempotent cw D D1).
  - apply TwoSlots_wf.
  - apply enforce_node_consistency_nc.
  - exact H.
Defined.

(** ** C10: a slot left without candidates *)

(** C10. When node consistency leaves some slot without candidates, the
    propagation that follows answers [False], and [solve] returns [None]:
    the first call of the search selects a slot with an empty domain and
    has no candidate to try. *)
Theorem empty_domain_unsat cw x :
  wf_crossword cw -> In x (variables cw) ->
  enforce_node_consistency cw (init_domains cw) x = [] ->
  (exists D1,
      ac3 cw (enforce_node_consistency cw (init_domains cw)) None = Ok (D1, false)
      /\ exists var, select_unassigned_variable cw D1 [] = Some var
                     /\ order_domain_values cw D1 var [] = Ok [])
  /\ solve cw = Ok None.
Proof.
  intros Hwf Hx Hempty.
  destruct (solve_store cw Hwf) as (D1 & E & Hinc & Hnc & Hac).
  assert (Hx1 : D1 x = []).
  { destruct (D1 x) as [|w l] eqn:Ex; auto.
    assert (In w (D1 x)) by (rewrite Ex; now left).
    apply Hinc in H. rewrite Hempty in H. contradiction. }
  assert (Hsde : some_domain_empty cw D1 = true).
  { apply some_domain_empty_spec. eauto. }
  rewrite Hsde in E. simpl in E.
  assert (Hsel : exists var, select_unassigned_variable cw D1 [] = Some var
                             /\ D1 var = []).
  { destruct (select_unassigned_variable cw D1 []) as [var|] eqn:Es.
    - exists var. split; auto.
      apply select_unassigned_variable_Some in Es. destruct Es as (_ & _ & Hmin).
      specialize (Hmin x Hx eq_refl). apply key_leb_spec in Hmin.
      unfold select_key in Hmin. simpl in Hmin. rewrite Hx1 in Hmin.
      simpl in Hmin. destruct (D1 var); [reflexivity|simpl in Hmin; lia].
    - rewrite select_unassigned_variable_None in Es.
      specialize (Es x Hx). discriminate. }
  destruct Hsel as (var & Es & Hvar).
  assert (Hord : order_domain_values cw D1 var [] = Ok []).
  { unfold order_domain_values. rewrite Hvar. reflexivity. }
  split.
  - exists D1. split; [exact E|]. eauto.
  - unfold solve, solve_state. rewrite E. cbn [bind].
    rewrite backtrack_unfold.
    assert (Hc : assignment_complete cw [] = false).
    { destruct (assignment_complete cw []) eqn:Ec; auto.
      apply assignment_complete_spec in Ec. destruct Ec as [_ Ec].
      destruct (Ec x Hx). }
    rewrite Hc, Es, Hord. reflexivity.
Qed.

Lemma lone_grid_wf vocabulary : wf_crossword (lone_grid vocabulary).
Proof. split; simpl; intros; [reflexivity|discriminate|discriminate]. Qed.

Lemma empty_domain_unsat_witness :
  let cw := lone_grid ["CAT"; "DOG"; "HORSE"] in
  enforce_node_consistency cw (init_domains cw) lone_slot = []
  /\ solve cw = Ok None.
Proof.
  intros cw.
  assert (H : enforce_node_consistency cw (init_domains cw) lone_slot = [])
    by reflexivity.
  split; [exact H|].
  apply (proj2 (empty_domain_unsat cw lone_slot (lone_grid_wf _)
                  (or_introl eq_refl) H)).
Defined.

(** ** C2: completeness of [solve] *)

(** C2. On a well-formed structural model, if some complete assignment of
    vocabulary words passes the consistency checker, then [solve] returns
    an assignment: it neither returns [None] nor raises. *)
Theorem solve_completeness cw a :
  wf_crossword cw ->
  NoDup (keys a) ->
  assignment_complete cw a = true ->
  consistent cw a = Ok true ->
  (forall v w, In (v, w) a -> In w (words cw)) ->
  exists r, solve cw = Ok (Some r).
Proof.
  intros Hwf Hnd Hc Hcons Hvoc.
  apply (solve_complete cw (dict_get a) Hwf).
  now apply solution_of_assignment.
Qed.

Lemma solve_completeness_witness :
  let cw := TwoSlots.grid ["AB"; "CD"; "DA"] in
  let a := [(TwoSlots.A, "DA"); (TwoSlots.B, "CD")] in
  (assignment_complete cw a = true /\ consistent cw a = Ok true)
  /\ exists r, solve cw = Ok (Some r).
Proof.
  intros cw a.
  split; [split; reflexivity|].
  apply (solve_completeness cw a).
  - apply TwoSlots_wf.
  - repeat constructor; simpl; intuition discriminate.
  - reflexivity.
  - reflexivity.
  - simpl. intros v w [H|[H|[]]]; inversion H; subst; simpl; auto.
Defined.

(** ** C4: the store across a failed candidate *)

(** C4, as the code has it.  [backtrack] keeps no snapshot of
    [self.domains] and undoes nothing; what holds is that on a well-formed
    structural model and a node- and arc-consistent store (the store
    [solve] hands to the search, and so the store of every step of that
    search) exploring a candidate, with or without success, returns the
    very same store, because the propagation finds nothing to remove. *)
Theorem backtrack_store_unchanged_at_fixed_point cw D depth var w a r D' a' :
  wf_crossword cw -> node_consistent cw D -> arc_consistent cw D ->
  try_values cw (backtrack cw depth) var [w] D a = Ok (r, D', a') ->
  D' = D.
Proof.
  intros Hwf Hnc Hac H.
  eapply (try_values_store cw (backtrack cw depth) var D Hwf Hnc Hac); eauto.
  intros a0 r0 D0 a0' H0. eapply backtrack_store; eauto.
Qed.

Lemma TwoSlots_store_arc_consistent :
  let cw := TwoSlots.grid ["AB"; "BA"; "DOG"] in
  exists D,
    ac3 cw (enforce_node_consistency cw (init_domains cw)) None = Ok (D, true)
    /\ D = enforce_node_consistency cw (init_domains cw)
    /\ node_consistent cw D /\ arc_consistent cw D.
Proof.
  intros cw.
  destruct (solve_store cw (TwoSlots_wf _)) as (D1 & E & Hi & Hnc & Hac).
  assert (E' : ac3 cw (enforce_node_consistency cw (init_domains cw)) None
               = Ok (enforce_node_consistency cw (init_domains cw), true))
    by (vm_compute; reflexivity).
  rewrite E' in E. inversion E; subst.
  eexists. split; [exact E'|]. auto.
Qed.

Lemma backtrack_store_unchanged_at_fixed_point_witness :
  let cw := TwoSlots.grid ["AB"; "BA"; "DOG"] in
  let D := enforce_node_consistency cw (init_domains cw) in
  let a := [(TwoSlots.A, "AB")] in
  let a' := [(TwoSlots.A, "AB"); (TwoSlots.B, "AB")] in
  try_values cw (backtrack cw 1) TwoSlots.B ["AB"] D a = Ok (Some a', D, a')
  /\ D = D.
Proof.
  intros cw D a a'.
  assert (H : try_values cw (backtrack cw 1) TwoSlots.B ["AB"] D a
              = Ok (Some a', D, a')) by (vm_compute; reflexivity).
  split; [exact H|].
  destruct TwoSlots_store_arc_consistent as (D1 & _ & HD & Hnc & Hac).
  apply (backtrack_store_unchanged_at_fixed_point
           cw D 1 TwoSlots.B "AB" a (Some a') D a' (TwoSlots_wf _)).
  - exact (enforce_node_consistency_nc cw (init_domains cw)).
  - fold cw in HD. subst D1. exact Hac.
  - exact H.
Defined.

(** C4, as the specification states it, fails: called on a store that has
    not been propagated, the exploration of the candidate "AB" for the
    across slot empties both domains, fails, and leaves them empty. *)
Lemma backtrack_store_not_restored :
  ~ (forall cw D depth var w a r D' a',
        wf_crossword cw -> node_consistent cw D ->
        try_values cw (backtrack cw depth) var [w] D a = Ok (r, D', a') ->
        r = None -> forall x, D' x = D x).
Proof.
  intros H.
  pose (cw := TwoSlots.grid ["AB"; "CD"]).
  pose (D := enforce_node_consistency cw (init_domains cw)).
  assert (E : exists D' a',
             try_values cw (backtrack cw 2) TwoSlots.A ["AB"] D []
             = Ok (None, D', a') /\ D' TwoSlots.A = []).
  { eexists. eexists. split; [vm_compute; reflexivity|reflexivity]. }
  destruct E as (D' & a' & E & HA).
  specialize (H cw D 2 TwoSlots.A "AB" [] None D' a' (TwoSlots_wf _)
                (enforce_node_consistency_nc _ _) E eq_refl TwoSlots.A).
  rewrite HA in H. vm_compute in H. discriminate.
Qed.

(** ** C1 and C3: the consistency check of the search *)

(** C3, evaluated on the code.  In [backtrack] the call
    [self.consistent(assignment)] is made before [assignment[var] = value],
    so it checks the assignment without the candidate.  On the two-slot
    grid with vocabulary [{"AB", "BA"}], at the step that extends
    [{A: "AB"}], the candidate "AB" is added for the slot [B] and returned,
    although the extended assignment fails the checker. *)
Theorem backtrack_adds_unchecked_candidate :
  let cw := TwoSlots.grid ["AB"; "BA"] in
  let D := enforce_node_consistency cw (init_domains cw) in
  let a := [(TwoSlots.A, "AB")] in
  let a' := [(TwoSlots.A, "AB"); (TwoSlots.B, "AB")] in
  ac3 cw D None = Ok (D, true)
  /\ select_unassigned_variable cw D a = Some TwoSlots.B
  /\ order_domain_values cw D TwoSlots.B a = Ok ["AB"; "BA"]
  /\ dict_set a TwoSlots.B "AB" = a'
  /\ consistent cw a' = Ok false
  /\ backtrack cw 2 D a = Ok (Some a', D, a').
Proof.
  intros cw D a a'.
  repeat split; vm_compute; reflexivity.
Qed.

(** C1, evaluated on the code.  On the two-slot grid with vocabulary
    [{"AB", "BA"}], which has the solution [{A: "AB", B: "BA"}], [solve]
    returns the complete assignment [{A: "AB", B: "AB"}], which fails the
    consistency checker: the last slot's word is never checked. *)
Theorem solve_unsound :
  let cw := TwoSlots.grid ["AB"; "BA"] in
  let a' := [(TwoSlots.A, "AB"); (TwoSlots.B, "AB")] in
  solve cw = Ok (Some a')
  /\ assignment_complete cw a' = true
  /\ consistent cw a' = Ok false
  /\ consistent cw [(TwoSlots.A, "AB"); (TwoSlots.B, "BA")] = Ok true.
Proof.
  intros cw a'. repeat split; vm_compute; reflexivity.
Qed.

(** The same happens for the other iteration orders of the vocabulary and
    of the slot set. *)
Lemma solve_unsound_other_orders :
  (exists r, solve (TwoSlots.grid ["BA"; "AB"]) = Ok (Some r)
             /\ consistent (TwoSlots.grid ["BA"; "AB"]) r = Ok false)
  /\ (exists r, solve (TwoSlots.grid' ["AB"; "BA"]) = Ok (Some r)
                /\ consistent (TwoSlots.grid' ["AB"; "BA"]) r = Ok false)
  /\ (exists r, solve (TwoSlots.grid' ["BA"; "AB"]) = Ok (Some r)
                /\ consistent (TwoSlots.grid' ["BA"; "AB"]) r = Ok false).
Proof.
  repeat split; eexists; (split; [vm_compute; reflexivity|vm_compute; reflexivity]).
Qed.

(** * Further properties of the code *)

(** ** The loop of [ac3] in every state *)

Lemma ac3_loop_fuel_irrelevant cw :
  forall f1 f2 D q,
    ac3_measure cw D q <= f1 -> ac3_measure cw D q <= f2 ->
    ac3_loop cw f1 D q = ac3_loop cw f2 D q.
Proof.
  induction f1 as [|f1 IH]; intros f2 D q H1 H2.
  - destruct q as [|[x y] q]; [destruct f2; reflexivity|].
    exfalso. unfold ac3_measure in H1. simpl in H1.
    pose proof (arc_weight_pos cw (x, y)). lia.
  - destruct q as [|[x y] q]; [destruct f2; reflexivity|].
    destruct f2 as [|f2].
    { exfalso. unfold ac3_measure in H2. simpl in H2.
      pose proof (arc_weight_pos cw (x, y)). lia. }
    simpl. destruct (revise cw D x y) as [[D' revised]| |] eqn:E; simpl; auto.
    pose proof (ac3_measure_step cw D x y q D' revised E) as Hs.
    destruct revised; cbv iota in Hs; apply IH; apply Nat.lt_succ_r;
      (eapply Nat.lt_le_trans; [exact Hs|assumption]).
Qed.

(** The [while] loop of [ac3] terminates from every store and every queue,
    whatever the words and overlaps are: [ac3] never runs out of fuel, and
    the loop gives the same result with any larger amount of fuel. *)
Theorem ac3_terminates_in_every_state cw D arcs :
  ac3 cw D arcs <> OutOfFuel
  /\ forall fuel,
       ac3_measure cw D (initial_queue cw arcs) <= fuel ->
       ac3_loop cw fuel D (initial_queue cw arcs)
       = ac3_loop cw (ac3_measure cw D (initial_queue cw arcs)) D
                  (initial_queue cw arcs).
Proof.
  split.
  - unfold ac3.
    pose proof (ac3_loop_terminates cw _ D (initial_queue cw arcs) (le_n _)) as H.
    destruct (ac3_loop cw _ D (initial_queue cw arcs)) as [D'| |]; simpl;
      try discriminate; [|contradiction].
    destruct (some_domain_empty cw D'); discriminate.
  - intros fuel H. apply ac3_loop_fuel_irrelevant; auto.
Qed.

Lemma ac3_terminates_in_every_state_witness :
  let cw := TwoSlots.grid ["AB"; "CD"; "DA"] in
  let D := init_domains cw in
  ac3_measure cw D (all_arcs cw) <= 100
  /\ ac3_loop cw 100 D (all_arcs cw)
     = ac3_loop cw (ac3_measure cw D (all_arcs cw)) D (all_arcs cw).
Proof.
  intros cw D.
  assert (H : ac3_measure cw D (all_arcs cw) <= 100) by (vm_compute; lia).
  split; [exact H|].
  exact (proj2 (ac3_terminates_in_every_state cw D None) 100 H).
Defined.

(** [ac3] never removes a word that takes part in a solution: from a store
    that holds every word of a solution it answers [True] and the words of
    the solution are still there. *)
Theorem ac3_keeps_solutions cw s D :
  wf_crossword cw -> solution cw s -> node_consistent cw D ->
  sol_in cw s D ->
  exists D', ac3 cw D None = Ok (D', true) /\ sol_in cw s D'.
Proof.
  intros Hwf Hsol Hnc Hin.
  destruct (ac3_default_spec cw Hwf D Hnc) as (D' & E & Hinc & Hac).
  assert (Hin' : sol_in cw s D').
  { unfold ac3 in E. apply bind_Ok in E. destruct E as (D1 & El & E).
    assert (D1 = D') by (destruct (some_domain_empty cw D1); now inversion E).
    subst D1.
    exact (ac3_loop_sol_in cw s Hwf Hsol _ _ _ _ Hnc (queue_ok_all_arcs cw) Hin El). }
  exists D'. split; [|exact Hin'].
  rewrite E, (some_domain_empty_false cw s D' Hin'). reflexivity.
Qed.

Lemma two_slots_solution_ok :
  solution (TwoSlots.grid ["AB"; "CD"; "DA"]) two_slots_solution.
Proof.
  split.
  - intros x [<-|[<-|[]]]; vm_compute; auto.
  - intros x y xi yi [<-|[<-|[]]] [<-|[<-|[]]] Hne Ho; try congruence;
      vm_compute in Ho; inversion Ho; subst; vm_compute; eauto.
Qed.

Lemma two_slots_solution_in :
  sol_in (TwoSlots.grid ["AB"; "CD"; "DA"]) two_slots_solution
         (enforce_node_consistency (TwoSlots.grid ["AB"; "CD"; "DA"])
                                   (init_domains (TwoSlots.grid ["AB"; "CD"; "DA"]))).
Proof. intros x [<-|[<-|[]]]; vm_compute; auto. Qed.

Lemma ac3_keeps_solutions_witness :
  let cw := TwoSlots.grid ["AB"; "CD"; "DA"] in
  let D := enforce_node_consistency cw (init_domains cw) in
  exists D', ac3 cw D None = Ok (D', true) /\ sol_in cw two_slots_solution D'.
Proof.
  intros cw D.
  apply (ac3_keeps_solutions cw two_slots_solution D).
  - apply TwoSlots_wf.
  - exact two_slots_solution_ok.
  - apply enforce_node_consistency_nc.
  - exact two_slots_solution_in.
Defined.

(** ** [ac3] computes the largest arc-consistent store *)

Lemma arc_consistent_every_pair cw E x y :
  wf_crossword cw -> arc_consistent cw E ->
  In x (variables cw) -> In y (variables cw) -> arc_ok cw E x y.
Proof.
  intros Hwf Hac Hx Hy xi yi Eo. apply (Hac x y Hx); auto.
  apply neighbors_spec. split; auto. split; [|eauto].
  intros ->. rewrite (wf_irrefl _ Hwf) in Eo. discriminate.
Qed.

Lemma revise_keeps_sub_store cw E D D' x y revised :
  wf_crossword cw -> node_consistent cw D ->
  In x (variables cw) -> In y (variables cw) ->
  arc_consistent cw E ->
  (forall z, In z (variables cw) -> incl (E z) (D z)) ->
  revise cw D x y = Ok (D', revised) ->
  forall z, In z (variables cw) -> incl (E z) (D' z).
Proof.
  intros Hwf Hnc Hx Hy Hac Hsub Hr z Hz w Hw.
  destruct (revise_spec cw D x y Hwf Hnc Hx Hy)
    as (D1 & r1 & E1 & Ho & Hf & Hnone & _).
  rewrite Hr in E1. inversion E1; subst D1 r1. clear E1.
  destruct (Slot_eq_dec z x) as [->|Hzx].
  - destruct (overlaps cw x y) as [[xi yi]|] eqn:Eo.
    + rewrite (Hf _ _ eq_refl). apply filter_In. split; [now apply Hsub|].
      apply supportedb_true_iff.
      destruct (arc_consistent_every_pair cw E x y Hwf Hac Hx Hy _ _ Eo w Hw)
        as (yv & Hyv & Hag).
      exists yv. split; auto. now apply Hsub.
    + rewrite Hnone; auto. now apply Hsub.
  - rewrite Ho; auto. now apply Hsub.
Qed.

Lemma ac3_loop_keeps_sub_store cw E :
  wf_crossword cw -> arc_consistent cw E ->
  forall fuel D q D',
    node_consistent cw D -> queue_ok cw q ->
    (forall z, In z (variables cw) -> incl (E z) (D z)) ->
    ac3_loop cw fuel D q = Ok D' ->
    forall z, In z (variables cw) -> incl (E z) (D' z).
Proof.
  intros Hwf Hac. induction fuel as [|fuel IH]; intros D q D' Hnc Hq Hsub H.
  - destruct q as [|[x y] q]; simpl in H; [|discriminate].
    inversion H; subst; assumption.
  - destruct q as [|[x y] q]; simpl in H; [inversion H; subst; assumption|].
    apply bind_Ok in H. destruct H as ([D1 r1] & Hr & H).
    destruct (Hq (x, y) (or_introl eq_refl)) as [Hx Hy]. simpl in Hx, Hy.
    assert (Hnc1 : node_consistent cw D1).
    { eapply node_consistent_incl; eauto. eapply revise_dom_incl; eauto. }
    pose proof (revise_keeps_sub_store cw E D D1 x y r1 Hwf Hnc Hx Hy Hac Hsub Hr)
      as Hsub1.
    pose proof (queue_ok_step cw x y q r1 Hq) as Hq1.
    destruct r1; eapply IH; eauto.
Qed.

(** On a well-formed structural model and a node-consistent store, the
    store [ac3()] returns is arc-consistent, is included in the initial
    store, and includes every arc-consistent store that the initial store
    includes: it is the largest one, whatever the order of the queue. *)
Theorem ac3_largest_arc_consistent_store cw D :
  wf_crossword cw -> node_consistent cw D ->
  exists D' b,
    ac3 cw D None = Ok (D', b)
    /\ dom_incl D' D
    /\ arc_consistent cw D'
    /\ forall E,
         arc_consistent cw E ->
         (forall z, In z (variables cw) -> incl (E z) (D z)) ->
         forall z, In z (variables cw) -> incl (E z) (D' z).
Proof.
  intros Hwf Hnc.
  destruct (ac3_default_spec cw Hwf D Hnc) as (D' & E & Hinc & Hac).
  exists D', (negb (some_domain_empty cw D')).
  split; [exact E|]. split; [exact Hinc|]. split; [exact Hac|].
  intros E0 Hac0 Hsub.
  unfold ac3 in E. apply bind_Ok in E. destruct E as (D1 & El & E).
  assert (D1 = D') by (destruct (some_domain_empty cw D1); now inversion E).
  subst D1.
  exact (ac3_loop_keeps_sub_store cw E0 Hwf Hac0 _ _ _ _ Hnc
           (queue_ok_all_arcs cw) Hsub El).
Qed.

Lemma ac3_largest_arc_consistent_store_witness :
  let cw := TwoSlots.grid ["AB"; "CD"; "DA"] in
  let D := enforce_node_consistency cw (init_domains cw) in
  exists D' b,
    ac3 cw D None = Ok (D', b)
    /\ dom_incl D' D
    /\ arc_consistent cw D'
    /\ forall E,
         arc_consistent cw E ->
         (forall z, In z (variables cw) -> incl (E z) (D z)) ->
         forall z, In z (variables cw) -> incl (E z) (D' z).
Proof.
  intros cw D.
  apply (ac3_largest_arc_consistent_store cw D).
  - apply TwoSlots_wf.
  - apply enforce_node_consistency_nc.
Defined.

(** ** [revise] and [enforce_node_consistency] run twice *)

(** After [revise(x, y)] a second [revise(x, y)] answers [False] and
    returns the very same store. *)
Theorem revise_idempotent cw D x y D' revised :
  wf_crossword cw -> node_consistent cw D ->
  In x (variables cw) -> In y (variables cw) ->
  revise cw D x y = Ok (D', revised) ->
  revise cw D' x y = Ok (D', false).
Proof.
  intros Hwf Hnc Hx Hy Hr.
  destruct (revise_spec cw D x y Hwf Hnc Hx Hy)
    as (D1 & r1 & E1 & Ho & Hf & Hnone & _).
  rewrite Hr in E1. inversion E1; subst D1 r1. clear E1.
  apply revise_fixed; auto.
  - eapply node_consistent_incl; [|exact Hnc]. eapply revise_dom_incl; eauto.
  - eapply arc_ok_of_filter; eauto.
Qed.

Lemma revise_idempotent_witness :
  let cw := TwoSlots.grid ["AB"; "CD"; "DA"] in
  let D := enforce_node_consistency cw (init_domains cw) in
  let D' := dom_set D TwoSlots.A ["AB"; "DA"] in
  revise cw D TwoSlots.A TwoSlots.B = Ok (D', true)
  /\ revise cw D' TwoSlots.A TwoSlots.B = Ok (D', false).
Proof.
  intros cw D D'.
  assert (H : revise cw D TwoSlots.A TwoSlots.B = Ok (D', true))
    by (vm_compute; reflexivity).
  split; [exact H|].
  apply (revise_idempotent cw D TwoSlots.A TwoSlots.B D' true).
  - apply TwoSlots_wf.
  - apply enforce_node_consistency_nc.
  - simpl. auto.
  - simpl. auto.
  - exact H.
Defined.

(** Running [enforce_node_consistency] a second time changes no domain. *)
Theorem enforce_node_consistency_idempotent cw D x :
  enforce_node_consistency cw (enforce_node_consistency cw D) x
  = enforce_node_consistency cw D x.
Proof.
  rewrite !enforce_node_consistency_at.
  destruct (in_dec Slot_eq_dec x (variables cw)); [apply filter_idem|reflexivity].
Qed.

(** ** The consistency checker *)

(** [consistent] answers [True] exactly on the assignments in which every
    word has the length of its slot and any two distinct assigned slots
    with an overlap carry the same letter at the overlap indices; it looks
    at all assigned pairs, in both directions. *)
Theorem consistent_accepts_exactly cw a :
  consistent cw a = Ok true <->
  (forall v w, In (v, w) a -> String.length w = slot_length v)
  /\ (forall v1 w1 v2 w2 x y,
         In (v1, w1) a -> In (v2, w2) a -> v1 <> v2 ->
         overlaps cw v1 v2 = Some (x, y) ->
         exists c, String.get x w1 = Some c /\ String.get y w2 = Some c).
Proof. apply consistent_true. Qed.

(** An assignment accepted by [consistent] stays accepted when entries are
    removed or reordered: the answer [True] depends on the set of entries
    only. *)
Theorem consistent_sub_assignment cw a a' :
  incl a' a -> consistent cw a = Ok true -> consistent cw a' = Ok true.
Proof.
  intros Hi H. apply consistent_true in H. apply consistent_true.
  destruct H as [H1 H2]. split.
  - intros v w Hvw. apply H1. now apply Hi.
  - intros v1 w1 v2 w2 x y Hv1 Hv2. apply H2; now apply Hi.
Qed.

Lemma consistent_sub_assignment_witness :
  let cw := TwoSlots.grid ["AB"; "CD"; "DA"] in
  let a := [(TwoSlots.A, "DA"); (TwoSlots.B, "CD")] in
  consistent cw a = Ok true /\ consistent cw [(TwoSlots.B, "CD")] = Ok true.
Proof.
  intros cw a.
  assert (H : consistent cw a = Ok true) by reflexivity.
  split; [exact H|].
  apply (consistent_sub_assignment cw a [(TwoSlots.B, "CD")]).
  - intros p [<-|[]]. right. now left.
  - exact H.
Defined.

Lemma get_out_of_range (w : string) (i : nat) :
  String.length w <= i -> String.get i w = None.
Proof.
  revert i. induction w as [|c w IH]; simpl; intros i Hi; [reflexivity|].
  destruct i as [|i]; [lia|]. apply IH. lia.
Qed.

(** On wrong lengths the checker can raise instead of answering [False]:
    when the first entry has the right length and crosses the second entry
    at a letter the second word is too short to have, [value2[y]] raises
    [IndexError] before the length of the second word is looked at. *)
Theorem consistent_raises_on_short_word cw v1 w1 v2 w2 rest x y :
  slot_length v1 = String.length w1 ->
  v1 <> v2 ->
  overlaps cw v1 v2 = Some (x, y) ->
  x < String.length w1 ->
  String.length w2 <= y ->
  consistent cw ((v1, w1) :: (v2, w2) :: rest) = Raise IndexError.
Proof.
  intros Hl Hne Ho Hx Hy. unfold consistent. simpl.
  rewrite Hl, Nat.eqb_refl. simpl. rewrite slot_eqb_refl.
  apply slot_eqb_neq in Hne. rewrite Hne, Ho.
  unfold letters_agree. destruct (get_in_range _ _ Hx) as [c ->].
  rewrite (get_out_of_range _ _ Hy). reflexivity.
Qed.

Lemma consistent_raises_on_short_word_witness :
  consistent (TwoSlots.grid ["AB"; "C"])
             [(TwoSlots.A, "AB"); (TwoSlots.B, "C")]
  = Raise IndexError.
Proof.
  apply (consistent_raises_on_short_word
           (TwoSlots.grid ["AB"; "C"]) TwoSlots.A "AB" TwoSlots.B "C" [] 0 1).
  - reflexivity.
  - discriminate.
  - reflexivity.
  - simpl. lia.
  - simpl. lia.
Defined.

(** ** Completeness check and variable selection together *)

(** For an assignment whose keys are slots, [assignment_complete] answers
    [True] exactly when [select_unassigned_variable] finds no slot. *)
Theorem complete_iff_nothing_to_select cw D a :
  (forall v, In v (keys a) -> In v (variables cw)) ->
  (assignment_complete cw a = true <->
   select_unassigned_variable cw D a = None).
Proof.
  intros Hk. rewrite select_unassigned_variable_None, assignment_complete_spec.
  split.
  - intros [_ H] u Hu. apply dict_mem_In. auto.
  - intros H. split; auto. intros v Hv. apply dict_mem_In. auto.
Qed.

Lemma complete_iff_nothing_to_select_witness :
  let cw := TwoSlots.grid ["AB"; "BA"] in
  let a := [(TwoSlots.B, "AB"); (TwoSlots.A, "BA")] in
  assignment_complete cw a = true <->
  select_unassigned_variable cw (init_domains cw) a = None.
Proof.
  intros cw a.
  apply (complete_iff_nothing_to_select cw (init_domains cw) a).
  intros v [<-|[<-|[]]]; simpl; auto.
Defined.

(** When the assignment has an entry for every slot and also a key that is
    no slot, it is not complete and no slot is left to select: [backtrack]
    goes on with [var = None] and [self.domains[None]] raises [KeyError]. *)
Theorem backtrack_raises_on_foreign_key cw depth D a v :
  In v (keys a) -> ~ In v (variables cw) ->
  (forall u, In u (variables cw) -> In u (keys a)) ->
  backtrack cw (S depth) D a = Raise KeyError.
Proof.
  intros Hv Hnv Hall. rewrite backtrack_unfold.
  assert (Hc : assignment_complete cw a = false).
  { destruct (assignment_complete cw a) eqn:Ec; auto.
    apply assignment_complete_spec in Ec. destruct Ec as [Ec _].
    exfalso. auto. }
  assert (Hs : select_unassigned_variable cw D a = None).
  { apply select_unassigned_variable_None. intros u Hu.
    apply dict_mem_In. auto. }
  now rewrite Hc, Hs.
Qed.

Lemma backtrack_raises_on_foreign_key_witness :
  let cw := lone_grid ["CAKE"] in
  backtrack cw 3 (init_domains cw)
            [(lone_slot, "CAKE"); (TwoSlots.A, "AB")]
  = Raise KeyError.
Proof.
  intros cw.
  apply (backtrack_raises_on_foreign_key
           cw 2 (init_domains cw)
           [(lone_slot, "CAKE"); (TwoSlots.A, "AB")] TwoSlots.A).
  - simpl. auto.
  - simpl. intros [H|[]]. discriminate.
  - simpl. intros u [<-|[]]. auto.
Defined.

(** ** The tie-break of the variable selection *)

Section FirstLeast.
Context {K A : Type} (leb : K -> K -> bool).
Hypothesis leb_total : forall a b, leb a b = true \/ leb b a = true.
Hypothesis leb_trans : forall a b c, leb a b = true -> leb b c = true -> leb a c = true.

(** The head of the sorted list is the first element of the input whose key
    is least: every element before it has a strictly greater key. *)
Lemma sort_by_key_head_first (l : list (K * A)) p rest :
  sort_by_key leb l = p :: rest ->
  exists l1 l2,
    l = l1 ++ p :: l2
    /\ forall q, In q l1 -> leb (fst q) (fst p) = false.
Proof.
  revert p rest. induction l as [|p0 l IH]; simpl; intros p rest H; [discriminate|].
  destruct (sort_by_key leb l) as [|h t] eqn:Es; simpl in H.
  - inversion H; subst. exists [], l. split; [reflexivity|]. intros q [].
  - destruct (leb (fst p0) (fst h)) eqn:E.
    + inversion H; subst. exists [], l. split; [reflexivity|]. intros q [].
    + inversion H; subst.
      destruct (IH p t eq_refl) as (l1 & l2 & -> & Hl1).
      exists (p0 :: l1), l2. split; [reflexivity|].
      intros q [<-|Hq]; auto.
Qed.
End FirstLeast.

(** Ties are broken by iteration order: every unassigned slot that comes
    before the selected one in the iteration of the slot set has a strictly
    larger domain, or a domain of the same size and strictly fewer
    neighbors. *)
Theorem select_unassigned_variable_first_best cw D a v :
  select_unassigned_variable cw D a = Some v ->
  exists before after,
    filter (fun var => negb (dict_mem a var)) (variables cw)
    = before ++ v :: after
    /\ forall u, In u before ->
         List.length (D v) < List.length (D u)
         \/ (List.length (D v) = List.length (D u)
             /\ List.length (neighbors cw u) < List.length (neighbors cw v)).
Proof.
  unfold select_unassigned_variable.
  set (un := filter (fun var => negb (dict_mem a var)) (variables cw)).
  destruct (sort_by_key key_leb (map (fun var => (select_key cw D var, var)) un))
    as [|[k v0] rest] eqn:Es; simpl; [discriminate|].
  intros H. inversion H; subst v0.
  destruct (sort_by_key_head_first key_leb _ _ _ Es) as (l1 & l2 & El & Hl1).
  apply map_eq_app in El. destruct El as (b1 & b2 & -> & E1 & E2).
  destruct b2 as [|v' after]; [discriminate|]. simpl in E2.
  inversion E2 as [[Hk0 Hv0 Hl2]]. subst v' k l1.
  exists b1, after. split; [reflexivity|].
  intros u Hu.
  assert (Hk : key_leb (select_key cw D u) (select_key cw D v) = false).
  { apply (Hl1 (select_key cw D u, u)). apply in_map_iff. eauto. }
  destruct (key_leb_total (select_key cw D u) (select_key cw D v)) as [Ht|Ht];
    [congruence|].
  apply key_leb_spec in Ht.
  assert (Hn : ~ (fst (select_key cw D u) < fst (select_key cw D v)
                  \/ fst (select_key cw D u) = fst (select_key cw D v)
                     /\ (snd (select_key cw D u) <= snd (select_key cw D v))%Z)).
  { intros Hc. apply key_leb_spec in Hc. congruence. }
  unfold select_key in *. simpl in *. lia.
Qed.

Lemma select_unassigned_variable_first_best_witness :
  let cw := TwoSlots.grid ["AB"; "CD"; "DA"] in
  let D := dom_set (init_domains cw) TwoSlots.B ["DA"] in
  exists before after,
    filter (fun var => negb (dict_mem [] var)) (variables cw)
    = before ++ TwoSlots.B :: after
    /\ forall u, In u before ->
         List.length (D TwoSlots.B) < List.length (D u)
         \/ (List.length (D TwoSlots.B) = List.length (D u)
             /\ List.length (neighbors cw u)
                < List.length (neighbors cw TwoSlots.B)).
Proof.
  intros cw D.
  apply (select_unassigned_variable_first_best cw D [] TwoSlots.B).
  reflexivity.
Defined.

(** ** The value ordering *)

Lemma keyed_Ok {K A} (key : A -> res K) (l : list A) ks :
  keyed key l = Ok ks ->
  map snd ks = l /\ forall k x, In (k, x) ks -> key x = Ok k.
Proof.
  revert ks. induction l as [|x l IH]; simpl; intros ks H.
  - inversion H; subst. split; [reflexivity|]. intros k x [].
  - apply bind_Ok in H. destruct H as (k & Hk & H).
    apply bind_Ok in H. destruct H as (ks' & Hks & H). inversion H; subst.
    destruct (IH ks' Hks) as [Hm Hin]. split; [simpl; now rewrite Hm|].
    intros k0 x0 [E|Hi]; [inversion E; subst; exact Hk|auto].
Qed.

Section SortPermSorted.
Context {K A : Type} (leb : K -> K -> bool).
Hypothesis leb_total : forall a b, leb a b = true \/ leb b a = true.
Hypothesis leb_trans : forall a b c, leb a b = true -> leb b c = true -> leb a c = true.

Lemma insert_by_perm (p : K * A) l : Permutation (insert_by leb p l) (p :: l).
Proof.
  induction l as [|q l IH]; simpl; [apply Permutation_refl|].
  destruct (leb (fst p) (fst q)); [apply Permutation_refl|].
  eapply Permutation_trans; [apply perm_skip, IH|apply perm_swap].
Qed.

Lemma sort_by_key_perm (l : list (K * A)) : Permutation (sort_by_key leb l) l.
Proof.
  induction l as [|p l IH]; simpl; [apply Permutation_refl|].
  eapply Permutation_trans; [apply insert_by_perm|now apply perm_skip].
Qed.

Lemma insert_by_sorted (p : K * A) l :
  StronglySorted (fun a b => leb (fst a) (fst b) = true) l ->
  StronglySorted (fun a b => leb (fst a) (fst b) = true) (insert_by leb p l).
Proof.
  induction 1 as [|q l Hs IH Hq]; simpl.
  - constructor; constructor.
  - destruct (leb (fst p) (fst q)) eqn:E.
    + constructor; [constructor; assumption|].
      constructor; [exact E|].
      rewrite Forall_forall in *. intros r Hr. eapply leb_trans; eauto.
    + constructor; [exact IH|].
      rewrite Forall_forall in *. intros r Hr.
      apply insert_by_In in Hr. destruct Hr as [->|Hr]; auto.
      destruct (leb_total (fst p) (fst q)); congruence.
Qed.

Lemma sort_by_key_sorted (l : list (K * A)) :
  StronglySorted (fun a b => leb (fst a) (fst b) = true) (sort_by_key leb l).
Proof.
  induction l as [|p l IH]; simpl; [constructor|]. now apply insert_by_sorted.
Qed.

(** A list whose keys are all equal is left as it is: the sort is stable. *)
Lemma sort_by_key_equal_keys (l : list (K * A)) k :
  leb k k = true -> (forall p, In p l -> fst p = k) -> sort_by_key leb l = l.
Proof.
  intros Hk. induction l as [|p l IH]; simpl; intros Hl; [reflexivity|].
  rewrite IH by (intros; apply Hl; now right).
  destruct l as [|q l]; simpl; [reflexivity|].
  rewrite (Hl p), (Hl q), Hk; auto. right. now left.
Qed.
End SortPermSorted.

(** [order_domain_values] returns the words of the slot's domain, each as
    often as it is there, in ascending order of the number
    [count_constrained_values] gives them. *)
Theorem order_domain_values_sorted_permutation cw D var a vals :
  order_domain_values cw D var a = Ok vals ->
  Permutation vals (D var)
  /\ StronglySorted
       (fun w1 w2 =>
          exists c1 c2,
            count_constrained_values cw D var a w1 = Ok c1
            /\ count_constrained_values cw D var a w2 = Ok c2
            /\ c1 <= c2)
       vals.
Proof.
  unfold order_domain_values. intros H.
  apply bind_Ok in H. destruct H as (ks & Hk & H). inversion H; subst vals.
  apply keyed_Ok in Hk. destruct Hk as [Hm Hkey].
  assert (Ht : forall a b c : nat, (a <=? b) = true -> (b <=? c) = true ->
                                   (a <=? c) = true).
  { intros x y z. rewrite !Nat.leb_le. lia. }
  split.
  - rewrite <- Hm. apply Permutation_map. apply sort_by_key_perm.
  - pose proof (sort_by_key_sorted Nat.leb nat_leb_total Ht ks) as Hs.
    assert (Hin : forall p, In p (sort_by_key Nat.leb ks) ->
                  count_constrained_values cw D var a (snd p) = Ok (fst p)).
    { intros [k x] Hp. apply sort_by_key_In in Hp. simpl. auto. }
    revert Hs Hin. generalize (sort_by_key Nat.leb ks) as l. intros l Hs.
    induction Hs as [|p l Hs IH Hp]; simpl; intros Hin; [constructor|].
    constructor.
    + apply IH. intros q Hq. apply Hin. now right.
    + rewrite Forall_forall in *. intros w Hw. apply in_map_iff in Hw.
      destruct Hw as (q & <- & Hq).
      exists (fst p), (fst q). split; [apply Hin; now left|].
      split; [apply Hin; now right|]. apply Nat.leb_le. auto.
Qed.

Lemma order_domain_values_sorted_permutation_witness :
  let cw := TwoSlots.grid ["AB"; "CD"; "DA"] in
  let D := dom_set (init_domains cw) TwoSlots.B ["AC"; "BC"] in
  let vals := ["CD"; "AB"; "DA"] in
  Permutation vals (D TwoSlots.A)
  /\ StronglySorted
       (fun w1 w2 =>
          exists c1 c2,
            count_constrained_values cw D TwoSlots.A [] w1 = Ok c1
            /\ count_constrained_values cw D TwoSlots.A [] w2 = Ok c2
            /\ c1 <= c2)
       vals.
Proof.
  intros cw D vals.
  apply (order_domain_values_sorted_permutation cw D TwoSlots.A [] vals).
  vm_compute. reflexivity.
Defined.

Lemma count_constrained_loop_assigned cw D var a value ns c :
  (forall nb, In nb ns -> dict_mem a nb = true) ->
  count_constrained_loop cw D var a value ns c = Ok c.
Proof.
  induction ns as [|nb ns IH]; simpl; intros H; [reflexivity|].
  rewrite (H nb) by (now left). apply IH. intros; apply H; now right.
Qed.

(** When every neighbor of the slot is assigned (or it has none), no word
    is looked at and the ordering is the iteration order of the domain. *)
Theorem order_domain_values_neighbors_assigned cw D var a :
  (forall nb, In nb (neighbors cw var) -> dict_mem a nb = true) ->
  order_domain_values cw D var a = Ok (D var).
Proof.
  intros H. unfold order_domain_values.
  assert (Hk : forall l, keyed (count_constrained_values cw D var a) l
                         = Ok (map (fun w => (0, w)) l)).
  { induction l as [|w l IH]; simpl; [reflexivity|].
    unfold count_constrained_values at 1.
    rewrite count_constrained_loop_assigned by exact H. simpl.
    rewrite IH. reflexivity. }
  rewrite Hk. simpl.
  rewrite (sort_by_key_equal_keys Nat.leb _ 0 eq_refl).
  - rewrite map_map. simpl. now rewrite map_id.
  - intros p Hp. apply in_map_iff in Hp. destruct Hp as (w & <- & _). reflexivity.
Qed.

Lemma order_domain_values_neighbors_assigned_witness :
  let cw := TwoSlots.grid ["AB"; "BA"] in
  order_domain_values cw (init_domains cw) TwoSlots.B [(TwoSlots.A, "AB")]
  = Ok ["AB"; "BA"].
Proof.
  intros cw.
  apply (order_domain_values_neighbors_assigned
           cw (init_domains cw) TwoSlots.B [(TwoSlots.A, "AB")]).
  intros nb Hnb. vm_compute in Hnb. destruct Hnb as [<-|[]]. reflexivity.
Defined.

Lemma count_neighbor_values_sum value x y nvs c :
  x < String.length value ->
  (forall nv, In nv nvs -> y < String.length nv) ->
  count_neighbor_values value (Some (x, y)) nvs c
  = Ok (c + List.length (filter (fun nv => negb (agreeb value x nv y)) nvs)).
Proof.
  intros Hx. revert c. induction nvs as [|nv nvs IH]; simpl; intros c Hy.
  - f_equal. lia.
  - rewrite letters_agree_Ok by auto. simpl. rewrite IH by auto.
    destruct (agreeb value x nv y); simpl; f_equal; lia.
Qed.

(** The key of the value ordering: [count_constrained_values] adds up, over
    the neighbors of the slot that have no entry in the assignment, the
    words of the neighbor's domain that disagree with the value at the
    overlap; assigned neighbors count for nothing. *)
Theorem count_constrained_values_sum cw D var a value :
  wf_crossword cw -> node_consistent cw D ->
  In var (variables cw) -> In value (D var) ->
  count_constrained_values cw D var a value
  = Ok (list_sum
          (map (ruled_out cw D var value)
               (filter (fun nb => negb (dict_mem a nb)) (neighbors cw var)))).
Proof.
  intros Hwf Hnc Hvar Hval. unfold count_constrained_values.
  assert (G : forall ns c, incl ns (neighbors cw var) ->
              count_constrained_loop cw D var a value ns c
              = Ok (c + list_sum
                          (map (ruled_out cw D var value)
                               (filter (fun nb => negb (dict_mem a nb)) ns)))).
  { induction ns as [|nb ns IH]; simpl; intros c Hi; [f_equal; lia|].
    assert (Hns : incl ns (neighbors cw var)) by (intros z Hz; apply Hi; now right).
    destruct (dict_mem a nb); simpl; [auto|].
    assert (Hnb : In nb (neighbors cw var)) by (apply Hi; now left).
    apply neighbors_spec in Hnb. destruct Hnb as (Hnbv & _ & [x y] & Eo).
    destruct (wf_range _ Hwf _ _ _ _ Eo) as [Hx Hy].
    unfold ruled_out at 1. rewrite Eo.
    rewrite count_neighbor_values_sum.
    - simpl. rewrite IH by auto. f_equal. lia.
    - now rewrite (Hnc var Hvar value Hval).
    - intros nv Hnv. now rewrite (Hnc nb Hnbv nv Hnv). }
  rewrite G by apply incl_refl. reflexivity.
Qed.

Lemma count_constrained_values_sum_witness :
  let cw := TwoSlots.grid ["AB"; "CD"; "DA"] in
  let D := enforce_node_consistency cw (init_domains cw) in
  count_constrained_values cw D TwoSlots.A [] "AB" = Ok 2.
Proof.
  intros cw D.
  apply (count_constrained_values_sum cw D TwoSlots.A [] "AB").
  - apply TwoSlots_wf.
  - apply enforce_node_consistency_nc.
  - simpl. auto.
  - vm_compute. auto.
Defined.

(** ** What [backtrack] does to the assignment, in every state *)

Lemma order_domain_values_In cw D var a vals :
  order_domain_values cw D var a = Ok vals ->
  forall w, In w vals <-> In w (D var).
Proof.
  unfold order_domain_values. intros H.
  apply bind_Ok in H. destruct H as (ks & Hk & H). inversion H; subst vals.
  apply keyed_Ok in Hk. destruct Hk as [Hm _]. intros w.
  rewrite <- Hm, !in_map_iff.
  split; intros (p & Hp & Hin); exists p; split; auto;
    now apply (sort_by_key_In Nat.leb ks).
Qed.

Lemma extends_by_step cw D0 D1 a var value x :
  In var (variables cw) -> In value (D0 var) -> dict_mem a var = false ->
  dom_incl D1 D0 -> consistent cw a = Ok true ->
  extends_by cw D1 (a ++ [(var, value)]) x ->
  extends_by cw D0 a x.
Proof.
  intros Hvar Hval Hfresh Hinc Hc (l & -> & Hl & Hnd & Hlast).
  exists ((var, value) :: l). split; [now rewrite <- app_assoc|].
  split; [|split].
  - intros v w [E|Hin]; [inversion E; subst; auto|].
    destruct (Hl v w Hin). auto.
  - intros Ha. apply Hnd. unfold keys. rewrite map_app. simpl.
    apply NoDup_app; auto.
    + constructor; [tauto|constructor].
    + intros u Hu [<-|[]]. apply dict_mem_false in Hfresh. contradiction.
  - right. destruct Hlast as [->|Hlast]; [|exact Hlast].
    exists a, (var, value). split; [now rewrite app_nil_r|exact Hc].
Qed.

Lemma try_values_post cw (rec : Domains -> Assignment -> res BtResult) var D0 :
  (forall D a r D' a',
      rec D a = Ok (r, D', a') -> dom_incl D' D /\ bt_post cw D a (r, D', a')) ->
  In var (variables cw) ->
  forall vals D a out,
    dict_mem a var = false -> incl vals (D0 var) -> dom_incl D D0 ->
    try_values cw rec var vals D a = Ok out -> bt_post cw D0 a out.
Proof.
  intros Hrec Hvar.
  induction vals as [|value vals IH]; simpl; intros D a out Hfresh Hvals Hinc H.
  - inversion H; subst. simpl. split; [reflexivity|discriminate].
  - assert (Hvals' : incl vals (D0 var)) by (intros z Hz; apply Hvals; now right).
    apply bind_Ok in H. destruct H as (c & Hc & H).
    destruct c; [|apply (IH D a out Hfresh Hvals' Hinc H)].
    apply bind_Ok in H. destruct H as ([D1 ok] & Hac & H).
    apply ac3_dom_incl in Hac.
    assert (Hinc1 : dom_incl D1 D0) by (eapply dom_incl_trans; eauto).
    rewrite (dict_set_fresh _ _ _ Hfresh) in H.
    destruct ok.
    + apply bind_Ok in H. destruct H as ([[r2 D2] a2] & Hr & H).
      destruct (Hrec _ _ _ _ _ Hr) as (Hinc2 & Hnone & Hsome).
      destruct r2 as [x|].
      * inversion H; subst. simpl. split; [discriminate|].
        intros y Ey. inversion Ey; subst y.
        destruct (Hsome x eq_refl) as (Hx & Hcomp & Hext).
        split; [exact Hx|]. split; [exact Hcomp|].
        eapply extends_by_step; eauto. apply Hvals. now left.
      * rewrite (Hnone eq_refl), (dict_del_fresh _ _ _ Hfresh) in H. simpl in H.
        apply (IH D2 a out Hfresh Hvals'); [|exact H].
        eapply dom_incl_trans; [exact Hinc2|exact Hinc1].
    + rewrite (dict_del_fresh _ _ _ Hfresh) in H. simpl in H.
      apply (IH D1 a out Hfresh Hvals' Hinc1 H).
Qed.

Lemma backtrack_post cw :
  forall depth D a r D' a',
    backtrack cw depth D a = Ok (r, D', a') ->
    dom_incl D' D /\ bt_post cw D a (r, D', a').
Proof.
  induction depth as [|depth IH]; intros D a r D' a' H; [discriminate|].
  split; [eapply backtrack_incl; eauto|].
  rewrite backtrack_unfold in H.
  destruct (assignment_complete cw a) eqn:Ec.
  - inversion H; subst. simpl. split; [discriminate|].
    intros x Ex. inversion Ex; subst x. split; [reflexivity|]. split; [exact Ec|].
    exists []. rewrite app_nil_r.
    split; [reflexivity|]. split; [intros v w []|]. split; [auto|now left].
  - destruct (select_unassigned_variable cw D a) as [var|] eqn:Es;
      [|discriminate].
    apply select_unassigned_variable_Some in Es. destruct Es as (Hvar & Hfresh & _).
    apply bind_Ok in H. destruct H as (vals & Hv & H).
    refine (try_values_post cw (backtrack cw depth) var D IH Hvar
              vals D a (r, D', a') Hfresh _ (dom_incl_refl D) H).
    intros w Hw. now apply (order_domain_values_In _ _ _ _ _ Hv).
Qed.

(** A call of [backtrack] that returns [None] leaves the caller's
    assignment dictionary exactly as it received it, in the same order:
    every entry it added was deleted again. *)
Theorem backtrack_failure_restores_assignment cw depth D a D' a' :
  backtrack cw depth D a = Ok (None, D', a') -> a' = a.
Proof.
  intros H. apply backtrack_post in H. destruct H as [_ [Hnone _]]. auto.
Qed.

Lemma backtrack_failure_restores_assignment_witness :
  let cw := TwoSlots.grid ["AB"; "CD"] in
  let D := enforce_node_consistency cw (init_domains cw) in
  exists D', backtrack cw 3 D [] = Ok (None, D', []).
Proof.
  intros cw D.
  assert (H : exists D' a', backtrack cw 3 D [] = Ok (None, D', a')).
  { eexists. eexists. vm_compute. reflexivity. }
  destruct H as (D' & a' & H). exists D'.
  rewrite <- (backtrack_failure_restores_assignment cw 3 D [] D' a' H) at 2.
  exact H.
Defined.

(** A call of [backtrack] that returns an assignment returns the caller's
    dictionary itself; that assignment is complete, it is the assignment
    received followed by new entries, each a slot with a word of its
    domain, and, unless nothing was added, it passes the checker once its
    last entry is left out. *)
Theorem backtrack_success_extends cw depth D a x D' a' :
  backtrack cw depth D a = Ok (Some x, D', a') ->
  x = a'
  /\ assignment_complete cw x = true
  /\ exists l,
       x = a ++ l
       /\ (forall v w, In (v, w) l -> In v (variables cw) /\ In w (D v))
       /\ (NoDup (keys a) -> NoDup (keys x))
       /\ (l = [] \/ exists r0 p, x = r0 ++ [p] /\ consistent cw r0 = Ok true).
Proof.
  intros H. apply backtrack_post in H. destruct H as [_ [_ Hsome]].
  exact (Hsome x eq_refl).
Qed.

Lemma backtrack_success_extends_witness :
  let cw := TwoSlots.grid ["AB"; "BA"] in
  let D := enforce_node_consistency cw (init_domains cw) in
  let x := [(TwoSlots.A, "AB"); (TwoSlots.B, "AB")] in
  x = x
  /\ assignment_complete cw x = true
  /\ exists l,
       x = [(TwoSlots.A, "AB")] ++ l
       /\ (forall v w, In (v, w) l -> In v (variables cw) /\ In w (D v))
       /\ (NoDup (keys [(TwoSlots.A, "AB")]) -> NoDup (keys x))
       /\ (l = [] \/ exists r0 p, x = r0 ++ [p] /\ consistent cw r0 = Ok true).
Proof.
  intros cw D x.
  apply (backtrack_success_extends cw 2 D [(TwoSlots.A, "AB")] x D x).
  vm_compute. reflexivity.
Defined.

(** ** What [solve] returns *)

(** Every assignment [solve] returns gives each slot exactly one word, a
    vocabulary word of the slot's length, and passes the consistency
    checker once its last entry is left out (the word of the slot assigned
    last is the one never checked). *)
Theorem solve_result_shape cw r :
  solve cw = Ok (Some r) ->
  assignment_complete cw r = true
  /\ NoDup (keys r)
  /\ (forall v w, In (v, w) r ->
        In v (variables cw) /\ In w (words cw)
        /\ String.length w = slot_length v)
  /\ (r = [] \/ exists r0 p, r = r0 ++ [p] /\ consistent cw r0 = Ok true).
Proof.
  unfold solve, solve_state. intros H.
  apply bind_Ok in H. destruct H as ([r' D2] & H & Hr).
  apply bind_Ok in H. destruct H as ([D1 b] & Hac & H).
  apply bind_Ok in H. destruct H as ([[r2 D2'] a2] & Hbt & H).
  inversion H; subst. inversion Hr; subst. clear H Hr.
  apply ac3_dom_incl in Hac.
  apply backtrack_post in Hbt. destruct Hbt as [_ [_ Hsome]].
  destruct (Hsome r eq_refl) as (_ & Hc & l & Hl & Hin & Hnd & Hlast).
  simpl in Hl. subst l. split; [exact Hc|]. split; [apply Hnd; constructor|].
  split.
  - intros v w Hvw. destruct (Hin v w Hvw) as [Hv Hw]. split; [exact Hv|].
    apply Hac in Hw. apply enforce_node_consistency_In in Hw; auto.
  - exact Hlast.
Qed.

Lemma solve_result_shape_witness :
  let cw := TwoSlots.grid ["AB"; "BA"] in
  let r := [(TwoSlots.A, "AB"); (TwoSlots.B, "AB")] in
  solve cw = Ok (Some r)
  /\ (r = [] \/ exists r0 p, r = r0 ++ [p] /\ consistent cw r0 = Ok true).
Proof.
  intros cw r.
  assert (H : solve cw = Ok (Some r)) by (vm_compute; reflexivity).
  split; [exact H|].
  exact (proj2 (proj2 (proj2 (solve_result_shape cw r H)))).
Defined.

(** On a well-formed structural model [solve] returns: it raises no
    exception and the recursion never goes deeper than the number of slots
    plus one. *)
Theorem solve_returns cw :
  wf_crossword cw -> exists r, solve cw = Ok r.
Proof.
  intros Hwf.
  destruct (solve_store cw Hwf) as (D1 & E & Hi & Hnc & Hac).
  destruct (backtrack_total cw Hwf D1 Hnc Hac
              (S (List.length (variables cw))) [])
    as [[[r D2] a2] Hr].
  - apply assignment_ok_nil.
  - rewrite unassigned_nil. lia.
  - exists r. unfold solve, solve_state. rewrite E. cbn [bind].
    rewrite Hr. reflexivity.
Qed.

Lemma solve_returns_witness :
  exists r, solve (TwoSlots.grid ["AB"; "CD"; "DA"; "HORSE"]) = Ok r.
Proof.
  apply (solve_returns (TwoSlots.grid ["AB"; "CD"; "DA"; "HORSE"])).
  apply TwoSlots_wf.
Defined.

(** With no slot at all [solve] returns the empty assignment, whatever the
    vocabulary is. *)
Theorem solve_without_slots cw :
  variables cw = [] -> solve cw = Ok (Some []).
Proof.
  destruct cw as [vars voc ov]. simpl. intros ->. reflexivity.
Qed.

Lemma solve_without_slots_witness :
  solve (mkCrossword [] ["AB"; "CD"] (fun _ _ => None)) = Ok (Some []).
Proof.
  apply (solve_without_slots (mkCrossword [] ["AB"; "CD"] (fun _ _ => None))).
  reflexivity.
Defined.

(** ** letter_grid *)

Lemma list_set_length {A} n (x : A) l : List.length (list_set n x l) = List.length l.
Proof.
  revert n. induction l as [|y l IH]; intros [|n]; simpl; auto.
Qed.

Lemma list_set_nth_same {A} n (x : A) l :
  n < List.length l -> nth_error (list_set n x l) n = Some x.
Proof.
  revert n. induction l as [|y l IH]; intros [|n]; simpl; intros H; try lia; auto.
  apply IH. lia.
Qed.

Lemma list_set_nth_other {A} n m (x : A) l :
  m <> n -> nth_error (list_set n x l) m = nth_error l m.
Proof.
  revert n m. induction l as [|y l IH]; intros [|n] [|m]; simpl; intros H;
    auto; try congruence.
Qed.

Lemma list_set_Forall {A} (P : A -> Prop) n x l :
  Forall P l -> P x -> Forall P (list_set n x l).
Proof.
  intros Hl Hx. revert n. induction Hl as [|y l Hy Hl IH]; intros [|n]; simpl;
    constructor; auto.
Qed.

Lemma get_nth_error (w : string) (k : nat) :
  String.get k w = nth_error (list_ascii_of_string w) k.
Proof.
  revert k. induction w as [|c w IH]; intros [|k]; simpl; auto.
Qed.

Lemma length_list_ascii (w : string) :
  List.length (list_ascii_of_string w) = String.length w.
Proof. induction w as [|c w IH]; simpl; auto. Qed.

Section LetterGrid.
Variables width height : nat.

Lemma grid_inv_ext W W' letters :
  (forall i j c, W i j c <-> W' i j c) ->
  grid_inv width height W letters -> grid_inv width height W' letters.
Proof.
  intros He [Hs Hc]. split; [exact Hs|]. intros i j Hi Hj.
  specialize (Hc i j Hi Hj).
  destruct (letters_get letters i j) as [[c|]|]; auto.
  - now apply He.
  - intros c Hw. apply (Hc c). now apply He.
Qed.

Lemma blank_letters_inv : grid_inv width height (fun _ _ _ => False) (blank_letters width height).
Proof.
  unfold blank_letters. split.
  - split; [apply repeat_length|]. apply Forall_forall. intros row Hrow.
    apply repeat_spec in Hrow. subst. apply repeat_length.
  - intros i j Hi Hj. unfold letters_get.
    rewrite (nth_error_repeat _ Hi), (nth_error_repeat _ Hj). auto.
Qed.

Lemma has_shape_row letters i row :
  has_shape width height letters -> nth_error letters i = Some row ->
  i < height /\ List.length row = width.
Proof.
  intros [Hl Hr] H. split.
  - rewrite <- Hl. apply nth_error_Some. congruence.
  - rewrite Forall_forall in Hr. apply Hr. eapply nth_error_In; eauto.
Qed.

(** One cell assignment: it succeeds exactly inside the array. *)
Lemma letters_set_in_bounds W letters i j c :
  grid_inv width height W letters -> i < height -> j < width ->
  exists letters',
    letters_set letters i j c = Ok letters'
    /\ grid_inv width height (fun i' j' c' => W i' j' c' \/ (i' = i /\ j' = j /\ c' = c))
                letters'.
Proof.
  intros [Hs Hc] Hi Hj. unfold letters_set.
  destruct (nth_error letters i) as [row|] eqn:Er.
  - destruct (has_shape_row _ _ _ Hs Er) as [_ Hrow].
    assert ((j <? List.length row) = true) as -> by (apply Nat.ltb_lt; lia).
    eexists. split; [reflexivity|].
    destruct Hs as [Hlen Hrows]. split.
    + split; [now rewrite list_set_length|].
      apply list_set_Forall; auto. now rewrite list_set_length.
    + intros i' j' Hi' Hj'. unfold letters_get.
      destruct (Nat.eq_dec i' i) as [->|Hne].
      * rewrite list_set_nth_same by lia.
        destruct (Nat.eq_dec j' j) as [->|Hnj].
        -- rewrite list_set_nth_same by lia. right. auto.
        -- rewrite list_set_nth_other by auto.
           specialize (Hc i j' Hi' Hj'). unfold letters_get in Hc.
           rewrite Er in Hc. destruct (nth_error row j') as [[c'|]|]; auto.
           intros c' [Hw|(_ & Hj0 & _)]; [exact (Hc c' Hw)|contradiction].
      * rewrite list_set_nth_other by auto.
        specialize (Hc i' j' Hi' Hj'). unfold letters_get in Hc.
        destruct (nth_error letters i') as [row'|]; auto.
        destruct (nth_error row' j') as [[c'|]|]; auto.
        intros c' [Hw|(Hi0 & _)]; [exact (Hc c' Hw)|contradiction].
  - exfalso. apply nth_error_None in Er. destruct Hs as [Hl _]. lia.
Qed.

Lemma letters_set_Ok_bounds letters i j c letters' :
  has_shape width height letters ->
  letters_set letters i j c = Ok letters' ->
  i < height /\ j < width /\ has_shape width height letters'.
Proof.
  intros Hs. unfold letters_set.
  destruct (nth_error letters i) as [row|] eqn:Er; [|discriminate].
  destruct (has_shape_row _ _ _ Hs Er) as [Hi Hrow].
  destruct (j <? List.length row) eqn:Ej; [|discriminate].
  apply Nat.ltb_lt in Ej. intros H. inversion H; subst.
  split; [exact Hi|]. split; [lia|]. destruct Hs as [Hlen Hrows]. split.
  - now rewrite list_set_length.
  - apply list_set_Forall; auto. now rewrite list_set_length.
Qed.

Lemma write_word_in_bounds variable :
  forall word k W letters,
    grid_inv width height W letters ->
    cells_in_bounds width height variable k (List.length word) ->
    exists letters',
      write_word variable word k letters = Ok letters'
      /\ grid_inv width height (fun i j c =>
                     W i j c
                     \/ exists n, nth_error word n = Some c
                                  /\ cell_of variable (k + n) = (i, j))
                  letters'.
Proof.
  induction word as [|c word IH]; intros k W letters Hinv Hb; cbn [write_word].
  - exists letters. split; [reflexivity|].
    eapply grid_inv_ext; [|exact Hinv]. intros i j c. split; [auto|].
    intros [H|(n & Hn & _)]; [exact H|]. destruct n; discriminate.
  - destruct (cell_of variable k) as [i j] eqn:Ec.
    destruct (Hb 0) as [Hi Hj]; [simpl; lia|].
    rewrite Nat.add_0_r, Ec in Hi, Hj. simpl in Hi, Hj.
    destruct (letters_set_in_bounds W letters i j c Hinv Hi Hj)
      as (l1 & E1 & Hinv1).
    rewrite E1. cbn [bind].
    destruct (IH (S k) _ l1 Hinv1) as (l2 & E2 & Hinv2).
    { intros n Hn. specialize (Hb (S n)). rewrite Nat.add_succ_r in Hb.
      apply Hb. simpl. lia. }
    exists l2. split; [exact E2|].
    eapply grid_inv_ext; [|exact Hinv2]. intros i' j' c'. split.
    + intros [[H|(-> & -> & ->)]|(n & Hn & Hcell)].
      * now left.
      * right. exists 0. rewrite Nat.add_0_r. auto.
      * right. exists (S n). rewrite Nat.add_succ_r. auto.
    + intros [H|(n & Hn & Hcell)]; [now left; left|].
      destruct n as [|n].
      * left. right. simpl in Hn. inversion Hn; subst.
        rewrite Nat.add_0_r, Ec in Hcell. inversion Hcell; auto.
      * right. exists n. rewrite Nat.add_succ_r in Hcell. auto.
Qed.

Lemma write_word_Ok_bounds variable :
  forall word k letters letters',
    has_shape width height letters ->
    write_word variable word k letters = Ok letters' ->
    cells_in_bounds width height variable k (List.length word)
    /\ has_shape width height letters'.
Proof.
  induction word as [|c word IH]; intros k letters letters' Hs H;
    cbn [write_word] in H.
  - inversion H; subst. split; [|exact Hs]. intros n Hn. simpl in Hn. lia.
  - destruct (cell_of variable k) as [i j] eqn:Ec.
    apply bind_Ok in H. destruct H as (l1 & E1 & H).
    destruct (letters_set_Ok_bounds _ _ _ _ _ Hs E1) as (Hi & Hj & Hs1).
    destruct (IH _ _ _ Hs1 H) as [Hb Hs2]. split; [|exact Hs2].
    intros [|n] Hn.
    + rewrite Nat.add_0_r, Ec. auto.
    + rewrite Nat.add_succ_r. apply (Hb n). simpl in Hn. lia.
Qed.

Lemma write_words_in_bounds :
  forall a W letters,
    grid_inv width height W letters -> assignment_in_bounds width height a ->
    exists letters',
      write_words a letters = Ok letters'
      /\ grid_inv width height (fun i j c => W i j c \/ writes a i j c) letters'.
Proof.
  induction a as [|[variable word] a IH]; simpl; intros W letters Hinv Hb.
  - exists letters. split; [reflexivity|].
    eapply grid_inv_ext; [|exact Hinv]. intros i j c. split; [auto|].
    intros [H|(v & w & k & [] & _)]. exact H.
  - destruct (write_word_in_bounds variable (list_ascii_of_string word) 0
                                   W letters Hinv) as (l1 & E1 & Hinv1).
    { intros n Hn. rewrite length_list_ascii in Hn.
      apply (Hb variable word n); [now left|exact Hn]. }
    rewrite E1. simpl.
    destruct (IH _ l1 Hinv1) as (l2 & E2 & Hinv2).
    { intros v w k Hin. apply Hb. now right. }
    exists l2. split; [exact E2|].
    eapply grid_inv_ext; [|exact Hinv2]. intros i j c. split.
    + intros [[H|(n & Hn & Hcell)]|(v & w & k & Hin & Hg & Hcell)].
      * now left.
      * right. exists variable, word, n. rewrite get_nth_error.
        split; [now left|auto].
      * right. exists v, w, k. split; [now right|auto].
    + intros [H|(v & w & k & [E|Hin] & Hg & Hcell)].
      * now left; left.
      * inversion E; subst. left. right. exists k.
        rewrite <- get_nth_error. auto.
      * right. exists v, w, k. auto.
Qed.

Lemma write_words_Ok_bounds :
  forall a letters letters',
    has_shape width height letters ->
    write_words a letters = Ok letters' ->
    assignment_in_bounds width height a.
Proof.
  induction a as [|[variable word] a IH]; simpl; intros letters letters' Hs H.
  - intros v w k [].
  - apply bind_Ok in H. destruct H as (l1 & E1 & H).
    destruct (write_word_Ok_bounds _ _ _ _ _ Hs E1) as [Hb Hs1].
    intros v w k [E|Hin] Hk.
    + inversion E; subst. rewrite length_list_ascii in Hb. apply (Hb k Hk).
    + exact (IH _ _ Hs1 H v w k Hin Hk).
Qed.

Lemma write_word_result variable :
  forall word k letters,
    (exists letters', write_word variable word k letters = Ok letters')
    \/ write_word variable word k letters = Raise IndexError.
Proof.
  induction word as [|c word IH]; intros k letters; cbn [write_word]; [eauto|].
  destruct (cell_of variable k) as [i j]. unfold letters_set.
  destruct (nth_error letters i) as [row|]; [|now right].
  destruct (j <? List.length row); [|now right]. cbn [bind]. apply IH.
Qed.

Lemma write_words_result :
  forall a letters,
    (exists letters', write_words a letters = Ok letters')
    \/ write_words a letters = Raise IndexError.
Proof.
  induction a as [|[variable word] a IH]; simpl; intros letters; [eauto|].
  destruct (write_word_result variable (list_ascii_of_string word) 0 letters)
    as [[l1 ->]| ->]; simpl; auto.
Qed.
End LetterGrid.

(** [letter_grid] returns an array exactly when every letter of every
    assigned word has its cell inside the [height] x [width] grid, and the
    array then has [height] rows of [width] cells; otherwise a write past
    the end of the array or of a row raises [IndexError]. *)
Theorem letter_grid_bounds width height a :
  (assignment_in_bounds width height a ->
   exists letters,
     letter_grid width height a = Ok letters
     /\ has_shape width height letters)
  /\ (~ assignment_in_bounds width height a ->
      letter_grid width height a = Raise IndexError).
Proof.
  unfold letter_grid. split.
  - intros Hb.
    destruct (write_words_in_bounds width height a _ _
                (blank_letters_inv width height) Hb) as (l & E & [Hs _]).
    eauto.
  - intros Hn.
    destruct (write_words_result a (blank_letters width height)) as [[l E]|E];
      [|exact E].
    exfalso. apply Hn.
    eapply write_words_Ok_bounds; [|exact E].
    apply (blank_letters_inv width height).
Qed.

Lemma letter_grid_bounds_witness :
  (exists letters,
      letter_grid 2 2 [(TwoSlots.A, "AB"); (TwoSlots.B, "CA")] = Ok letters
      /\ has_shape 2 2 letters)
  /\ letter_grid 2 2 [(TwoSlots.A, "ABC")] = Raise IndexError.
Proof.
  split.
  - apply (proj1 (letter_grid_bounds 2 2 [(TwoSlots.A, "AB"); (TwoSlots.B, "CA")])).
    intros v w k [E|[E|[]]] Hk; inversion E; subst; simpl in Hk;
      destruct k as [|[|k]]; unfold cell_of; simpl; lia.
  - apply (proj2 (letter_grid_bounds 2 2 [(TwoSlots.A, "ABC")])).
    intros H. specialize (H TwoSlots.A "ABC" 2 (or_introl eq_refl)).
    unfold cell_of in H. simpl in H. lia.
Defined.

(** In the array [letter_grid] returns, a cell holds a letter only if some
    assigned word writes that letter there, and holds [None] only if no
    assigned word covers it. *)
Theorem letter_grid_cells width height a letters i j :
  letter_grid width height a = Ok letters ->
  i < height -> j < width ->
  match letters_get letters i j with
  | Some (Some c) => writes a i j c
  | Some None => forall c, ~ writes a i j c
  | None => False
  end.
Proof.
  unfold letter_grid. intros H Hi Hj.
  assert (Hb : assignment_in_bounds width height a).
  { eapply write_words_Ok_bounds; [|exact H].
    apply (blank_letters_inv width height). }
  destruct (write_words_in_bounds width height a _ _
              (blank_letters_inv width height) Hb) as (l & E & [_ Hc]).
  rewrite H in E. inversion E; subst l.
  specialize (Hc i j Hi Hj).
  destruct (letters_get letters i j) as [[c|]|]; auto.
  - destruct Hc as [[]|Hc]. exact Hc.
  - intros c Hw. apply (Hc c). now right.
Qed.

Lemma letter_grid_cells_witness :
  let a := [(TwoSlots.A, "AB"); (TwoSlots.B, "CA")] in
  let letters := [[Some "C"%char; None]; [Some "A"%char; Some "B"%char]] in
  letter_grid 2 2 a = Ok letters
  /\ writes a 1 0 "A"%char.
Proof.
  intros a letters.
  assert (H : letter_grid 2 2 a = Ok letters) by reflexivity.
  split; [exact H|].
  exact (letter_grid_cells 2 2 a letters 1 0 H (le_n 2) (Nat.lt_0_succ 1)).
Defined.

(** Reading a word back: in the array [letter_grid] returns, the cell of
    the [k]-th letter of an assigned word holds that letter, provided every
    assigned word that covers the cell writes the same letter there (as the
    words of crossing slots do in a consistent assignment). *)
Theorem letter_grid_reads_back width height a letters variable word k c :
  letter_grid width height a = Ok letters ->
  In (variable, word) a ->
  String.get k word = Some c ->
  (forall c', writes a (fst (cell_of variable k)) (snd (cell_of variable k)) c' ->
              c' = c) ->
  letters_get letters (fst (cell_of variable k)) (snd (cell_of variable k))
  = Some (Some c).
Proof.
  unfold letter_grid. intros H Hin Hg Huniq.
  assert (Hb : assignment_in_bounds width height a).
  { eapply write_words_Ok_bounds; [|exact H].
    apply (blank_letters_inv width height). }
  destruct (write_words_in_bounds width height a _ _
              (blank_letters_inv width height) Hb) as (l & E & [_ Hc]).
  rewrite H in E. inversion E; subst l.
  destruct (Hb variable word k Hin (get_Some_lt _ _ _ Hg)) as [Hi Hj].
  specialize (Hc _ _ Hi Hj).
  assert (Hw : writes a (fst (cell_of variable k)) (snd (cell_of variable k)) c).
  { exists variable, word, k. split; [exact Hin|]. split; [exact Hg|].
    now destruct (cell_of variable k). }
  destruct (letters_get letters _ _) as [[c'|]|].
  - destruct Hc as [[]|Hc]. now rewrite (Huniq c' Hc).
  - exfalso. apply (Hc c). now right.
  - contradiction.
Qed.

Lemma letter_grid_reads_back_witness :
  let a := [(TwoSlots.A, "AB"); (TwoSlots.B, "CA")] in
  let letters := [[Some "C"%char; None]; [Some "A"%char; Some "B"%char]] in
  letters_get letters (fst (cell_of TwoSlots.B 1)) (snd (cell_of TwoSlots.B 1))
  = Some (Some "A"%char).
Proof.
  intros a letters.
  apply (letter_grid_reads_back 2 2 a letters TwoSlots.B "CA" 1 "A"%char).
  - reflexivity.
  - right. now left.
  - reflexivity.
  - intros c' (v & w & n & Hin & Hg & Hcell).
    destruct Hin as [E|[E|[]]]; inversion E; subst; unfold cell_of in Hcell;
      simpl in Hcell; inversion Hcell; subst; simpl in Hg;
        inversion Hg; reflexivity.
Defined.

(** ** [revise] against an empty domain *)

Lemma revise_loop_empty x y xi yi xs :
  x <> y ->
  forall (D : Domains) revised,
    D y = [] ->
    exists D',
      revise_loop x y xi yi xs D revised
      = Ok (D', revised || match xs with [] => false | _ => true end)
      /\ (forall z, z <> x -> D' z = D z)
      /\ (forall w, In w (D' x) <-> In w (D x) /\ ~ In w xs).
Proof.
  intros Hxy. induction xs as [|w0 xs IH]; intros D revised Hy; simpl.
  - exists D. rewrite orb_false_r. split; [reflexivity|]. split; [auto|].
    intros w. tauto.
  - rewrite Hy. simpl.
    set (D1 := dom_set D x (set_remove w0 (D x))).
    assert (Hy1 : D1 y = []) by (unfold D1; rewrite dom_set_other; congruence).
    destruct (IH D1 true Hy1) as (D' & E & Ho & Hx).
    exists D'. rewrite orb_true_r. split; [rewrite E; reflexivity|]. split.
    + intros z Hz. rewrite Ho by auto. unfold D1. now apply dom_set_other.
    + intros w. rewrite Hx. unfold D1. rewrite dom_set_same, set_remove_In.
      split.
      * intros [[H1 H2] H3]. split; [exact H1|].
        intros [H4|H4]; [congruence|exact (H3 H4)].
      * intros [H1 H2]. split; [split; [exact H1|]|].
        -- intros ->. apply H2. now left.
        -- intros H3. apply H2. now right.
Qed.

(** When the two slots overlap and the domain of [y] is empty, [revise]
    empties the domain of [x] without looking at a single letter (no
    exception, whatever the words are), leaves the other domains alone,
    and answers [True] unless the domain of [x] was empty already. *)
Theorem revise_against_empty_domain cw D x y xi yi :
  overlaps cw x y = Some (xi, yi) -> x <> y -> D y = [] ->
  exists D',
    revise cw D x y = Ok (D', match D x with [] => false | _ => true end)
    /\ D' x = []
    /\ forall z, z <> x -> D' z = D z.
Proof.
  intros Ho Hxy Hy. unfold revise. rewrite Ho.
  destruct (revise_loop_empty x y xi yi (D x) Hxy D false Hy) as (D' & E & Hz & Hx).
  exists D'. split; [exact E|]. split; [|exact Hz].
  destruct (D' x) as [|w l] eqn:Ex; [reflexivity|].
  exfalso. destruct (proj1 (Hx w) (or_introl eq_refl)) as [H1 H2]. auto.
Qed.

Lemma revise_against_empty_domain_witness :
  let cw := TwoSlots.grid ["AB"; "C"] in
  let D := dom_set (init_domains cw) TwoSlots.B [] in
  exists D',
    revise cw D TwoSlots.A TwoSlots.B = Ok (D', true)
    /\ D' TwoSlots.A = []
    /\ forall z, z <> TwoSlots.A -> D' z = D z.
Proof.
  intros cw D.
  apply (revise_against_empty_domain cw D TwoSlots.A TwoSlots.B 0 1).
  - reflexivity.
  - discriminate.
  - reflexivity.
Defined.
